(** * Verification of the caustic(s) lensing library

    Shallow embedding of
      - src/caustic/lenses/base.py          (ThickLens, ThinLens)
      - src/caustic/lenses/nfw.py           (NFW)
      - src/caustics/lenses/external_shear.py (ExternalShear)

    Tensors are evaluated element-wise by the source, so one tensor is
    modelled by one of its elements.  An element is either a real number or
    [Undef], the result of an operation taken outside its real domain (what
    IEEE arithmetic reports as nan or as an infinity).  Rounding is not
    modelled: arithmetic on defined elements is the arithmetic of [R], and
    zero has no sign.  Rounded evaluation departs from it by more than its
    last digits in two places of nfw.py.  For a positive [x] below the
    rounding unit the square root of (1 - x) / (1 + x) rounds to 1 and
    [arctanh] overflows: the source returns an infinity where [_f], [_g]
    and [_h] have a real value here.  Within the square root of the
    rounding unit of [x = 1] the difference in [_f] keeps its absolute
    accuracy but loses its leading digits, which the division by
    [x ** 2 - 1] in [kappa] magnifies.  The properties that give values or
    bounds of [_f], [_g], [_h] are therefore stated from 1/1000 on, and the
    bounds on [kappa] away from [x = 1]. *)

From Stdlib Require Import Reals Lra Lia ZArith String List.
Import ListNotations.
Open Scope R_scope.

(** ** Python exceptions and fallible computations *)

(** [TypeError], [ValueError] and [IndexError] are Python's own;
    [MissingParameterError] and [ConfigurationError] are the classes the
    specification names. *)
Inductive exn : Type :=
| TypeError
| ValueError
| IndexError
| MissingParameterError
| ConfigurationError.

Inductive result (A : Type) : Type :=
| Ok (a : A)
| Raise (e : exn).
Arguments Ok {A} a.
Arguments Raise {A} e.

Definition bind {A B : Type} (m : result A) (k : A -> result B) : result B :=
  match m with
  | Ok a => k a
  | Raise e => Raise e
  end.

Notation "x <- m ;; k" := (bind m (fun x => k))
  (at level 61, m at next level, right associativity).
Notation "' ( a , b ) <- m ;; k" := (bind m (fun p => let '(a, b) := p in k))
  (at level 61, m at next level, right associativity).

(** ** Tensor elements and the torch operations the sources use *)

Module Torch.

Inductive Tensor : Type :=
| Fin (r : R)
| Undef.

Definition lift1 (f : R -> R) (a : Tensor) : Tensor :=
  match a with
  | Fin x => Fin (f x)
  | Undef => Undef
  end.

Definition lift2 (f : R -> R -> R) (a b : Tensor) : Tensor :=
  match a, b with
  | Fin x, Fin y => Fin (f x y)
  | _, _ => Undef
  end.

Definition add : Tensor -> Tensor -> Tensor := lift2 Rplus.
Definition sub : Tensor -> Tensor -> Tensor := lift2 Rminus.
Definition mul : Tensor -> Tensor -> Tensor := lift2 Rmult.

(** [a / b]: a zero divisor leaves the reals. *)
Definition div (a b : Tensor) : Tensor :=
  match a, b with
  | Fin x, Fin y => if Req_dec_T y 0 then Undef else Fin (x / y)
  | _, _ => Undef
  end.

(** [a ** n] for a literal integer exponent. *)
Definition pow (a : Tensor) (n : nat) : Tensor := lift1 (fun x => x ^ n) a.

(** [a ** e] for a real exponent [0 < e] (the source only uses [1 / 3]). *)
Definition rpow (a : Tensor) (e : R) : Tensor :=
  match a with
  | Fin x =>
      if Rlt_dec 0 x then Fin (Rpower x e)
      else if Req_dec_T x 0 then Fin 0
      else Undef
  | Undef => Undef
  end.

Definition sqrt (a : Tensor) : Tensor :=
  match a with
  | Fin x => if Rle_dec 0 x then Fin (R_sqrt.sqrt x) else Undef
  | Undef => Undef
  end.

Definition log (a : Tensor) : Tensor :=
  match a with
  | Fin x => if Rlt_dec 0 x then Fin (ln x) else Undef
  | Undef => Undef
  end.

Definition arctan : Tensor -> Tensor := lift1 atan.

(** The inverse hyperbolic tangent on reals, defined on (-1, 1). *)
Definition atanh (u : R) : R := ln ((1 + u) / (1 - u)) / 2.

Definition arctanh (a : Tensor) : Tensor :=
  match a with
  | Fin x =>
      if Rlt_dec (-1) x then
        if Rlt_dec x 1 then Fin (atanh x) else Undef
      else Undef
  | Undef => Undef
  end.

Definition cos : Tensor -> Tensor := lift1 Rtrigo_def.cos.
Definition sin : Tensor -> Tensor := lift1 Rtrigo_def.sin.

(** The two-argument arctangent on reals, with values in (-PI, PI].  The
    reals have one zero: on the negative axis and at the origin the value
    is the one [torch.atan2] gives for a positive zero. *)
Definition atan2R (y x : R) : R :=
  if Rlt_dec 0 x then atan (y / x)
  else if Rlt_dec x 0 then
    if Rle_dec 0 y then atan (y / x) + PI else atan (y / x) - PI
  else if Rlt_dec 0 y then PI / 2
  else if Rlt_dec y 0 then - (PI / 2)
  else 0.

Definition atan2 : Tensor -> Tensor -> Tensor := lift2 atan2R.

(** Comparisons give a mask; a comparison with [Undef] is false. *)
Definition gt (a b : Tensor) : bool :=
  match a, b with
  | Fin x, Fin y => if Rlt_dec y x then true else false
  | _, _ => false
  end.

Definition lt (a b : Tensor) : bool := gt b a.

(** [torch.where(mask, a, b)]: both arguments are already evaluated and
    the mask selects one. *)
Definition where_ (mask : bool) (a b : Tensor) : Tensor :=
  if mask then a else b.

Definition zeros_like (a : Tensor) : Tensor := Fin 0.

(** The real value carried by a defined element. *)
Definition value (a : Tensor) : R :=
  match a with
  | Fin x => x
  | Undef => 0
  end.

Definition defined (a : Tensor) : Prop := exists r, a = Fin r.

End Torch.

Abbreviation Tensor := Torch.Tensor.
Abbreviation Fin := Torch.Fin.
Abbreviation Undef := Torch.Undef.

Declare Scope tensor_scope.
Delimit Scope tensor_scope with T.
Bind Scope tensor_scope with Torch.Tensor.
Infix "+" := Torch.add : tensor_scope.
Infix "-" := Torch.sub : tensor_scope.
Infix "*" := Torch.mul : tensor_scope.
Infix "/" := Torch.div : tensor_scope.
Infix "**" := Torch.pow (at level 30, right associativity) : tensor_scope.

(** A Python number used where a tensor is expected. *)
Coercion Torch.Fin : R >-> Torch.Tensor.

(** ** base.py: the two abstract lens classes *)

Module Base.

Section Lenses.

(** The override bundle ("Packed") is opaque to base.py. *)
Variable Packed : Type.

(** Constants imported from [..constants]. *)
Variable c_Mpc_s : R.
Variable arcsec_to_rad : R.

(** The methods of [Cosmology] that base.py calls. *)
Record Cosmology : Type := {
  angular_diameter_distance : Tensor -> option Packed -> result Tensor;
  angular_diameter_distance_z1z2 :
    Tensor -> Tensor -> option Packed -> result Tensor;
  Sigma_cr : Tensor -> Tensor -> option Packed -> result Tensor
}.

(** [seq[0]] *)
Definition item0 (l : list Tensor) : result Tensor :=
  match l with
  | v :: _ => Ok v
  | [] => Raise IndexError
  end.

(** *** class ThickLens *)

Record ThickLens : Type := {
  thick_cosmology : Cosmology;
  (* abstract methods *)
  thick_deflection_angle :
    Tensor -> Tensor -> Tensor -> option Packed -> result (Tensor * Tensor);
  thick_Sigma : Tensor -> Tensor -> Tensor -> option Packed -> result Tensor;
  thick_time_delay :
    Tensor -> Tensor -> Tensor -> option Packed -> result Tensor
}.

Definition thick_raytrace (self : ThickLens) (x y z_s : Tensor)
    (P : option Packed) : result (Tensor * Tensor) :=
  '(ax, ay) <- thick_deflection_angle self x y z_s P ;;
  Ok ((x - ax)%T, (y - ay)%T).

(** *** class ThinLens *)

Record ThinLens : Type := {
  cosmology : Cosmology;
  (* inherited from Parametrized; z_l is registered first *)
  unpack : option Packed -> result (list Tensor);
  (* abstract methods *)
  deflection_angle :
    Tensor -> Tensor -> Tensor -> option Packed -> result (Tensor * Tensor);
  convergence : Tensor -> Tensor -> Tensor -> option Packed -> result Tensor;
  potential : Tensor -> Tensor -> Tensor -> option Packed -> result Tensor
}.

Definition deflection_angle_hat (self : ThinLens) (x y z_s : Tensor)
    (P : option Packed) : result (Tensor * Tensor) :=
  params <- unpack self P ;;
  z_l <- item0 params ;;
  d_s <- angular_diameter_distance (cosmology self) z_s P ;;
  d_ls <- angular_diameter_distance_z1z2 (cosmology self) z_l z_s P ;;
  '(deflection_angle_x, deflection_angle_y) <- deflection_angle self x y z_s P ;;
  Ok ((d_s / d_ls * deflection_angle_x)%T, (d_s / d_ls * deflection_angle_y)%T).

Definition Sigma (self : ThinLens) (x y z_s : Tensor)
    (P : option Packed) : result Tensor :=
  params <- unpack self P ;;
  z_l <- item0 params ;;
  Sigma_cr_ <- Sigma_cr (cosmology self) z_l z_s P ;;
  kappa <- convergence self x y z_s P ;;
  Ok (kappa * Sigma_cr_)%T.

Definition raytrace (self : ThinLens) (x y z_s : Tensor)
    (P : option Packed) : result (Tensor * Tensor) :=
  '(ax, ay) <- deflection_angle self x y z_s P ;;
  Ok ((x - ax)%T, (y - ay)%T).

Definition time_delay (self : ThinLens) (x y z_s : Tensor)
    (P : option Packed) : result Tensor :=
  params <- unpack self P ;;
  z_l <- item0 params ;;
  d_l <- angular_diameter_distance (cosmology self) z_l P ;;
  d_s <- angular_diameter_distance (cosmology self) z_s P ;;
  d_ls <- angular_diameter_distance_z1z2 (cosmology self) z_l z_s P ;;
  '(ax, ay) <- deflection_angle self x y z_s P ;;
  potential_ <- potential self x y z_s P ;;
  let factor := ((1 + z_l) / c_Mpc_s * d_s * d_l / d_ls)%T in
  let fp := (0.5 * d_ls ** 2 / d_s ** 2 * (ax ** 2 + ay ** 2) - potential_)%T in
  Ok (factor * fp * arcsec_to_rad ** 2)%T.

End Lenses.

End Base.

(** ** nfw.py: the NFW halo *)

Module NFW.

Definition DELTA : R := 200.0.

(** Calling a tensor: tensors are not callable. *)
Definition call (f : Tensor) (arg : Tensor) : result Tensor := Raise TypeError.

(** Modelled from the spec: the decorators [transform_scalar_fn] and
    [transform_vector_fn] of [..utils] are not part of the sources; the
    specification describes them as the coordinate shift to the profile
    centre, so the decorated function is applied to the shifted
    coordinates. *)
Definition transform_scalar_fn {A : Type} (thx0 thy0 : Tensor)
    (fn : Tensor -> Tensor -> A) (thx thy : Tensor) : A :=
  fn (thx - thx0)%T (thy - thy0)%T.

Definition transform_vector_fn {A : Type} (thx0 thy0 : Tensor)
    (fn : Tensor -> Tensor -> A) (thx thy : Tensor) : A :=
  fn (thx - thx0)%T (thy - thy0)%T.

Definition _f (x : Tensor) : Tensor :=
  Torch.where_ (Torch.gt x 1)
    (1 - 2 / Torch.sqrt (x ** 2 - 1)
         * Torch.arctan (Torch.sqrt ((x - 1) / (x + 1))))%T
    (Torch.where_ (Torch.lt x 1)
       (1 - 2 / Torch.sqrt (1 - x ** 2)
            * Torch.arctanh (Torch.sqrt ((1 - x) / (1 + x))))%T
       0.0).

Definition _g (x : Tensor) : Tensor :=
  let term_1 := (1 / 2 * Torch.log (x / 2) ** 2)%T in
  let term_2 :=
    Torch.where_ (Torch.gt x 1)
      (2 * Torch.arctan (Torch.sqrt ((x - 1) / (x + 1))) ** 2)%T
      (Torch.where_ (Torch.lt x 1)
         (-2 * Torch.arctanh (Torch.sqrt ((1 - x) / (1 + x))) ** 2)%T
         0.0) in
  (term_1 + term_2)%T.

Definition _h (x : Tensor) : Tensor :=
  let term_1 := Torch.log (x / 2)%T in
  let term_2 :=
    Torch.where_ (Torch.gt x 1)
      (2 / Torch.sqrt (x ** 2 - 1)
         * Torch.arctan (Torch.sqrt ((x - 1) / (x + 1))))%T
      (Torch.where_ (Torch.lt x 1)
         (2 / Torch.sqrt (1 - x ** 2)
            * Torch.arctanh (Torch.sqrt ((1 - x) / (1 + x))))%T
         1.0) in
  (term_1 + term_2)%T.

Section Profile.

(** Constants imported from [..constants]. *)
Variable G_over_c2 : R.
Variable arcsec_to_rad : R.
Variable rad_to_arcsec : R.

(** The methods of the cosmology object that nfw.py calls. *)
Record Cosmology : Type := {
  rho_cr : Tensor -> Tensor;
  angular_diameter_dist : Tensor -> Tensor;
  angular_diameter_dist_z1z2 : Tensor -> Tensor -> Tensor
}.

(** [get_Sigma_cr] is imported from [..utils]. *)
Variable get_Sigma_cr : Tensor -> Tensor -> Cosmology -> Tensor.

Definition get_r_s (z_l : Tensor) (cosmology : Cosmology) (m c : Tensor)
    : Tensor :=
  let rho_cr_ := rho_cr cosmology z_l in
  let r_delta := Torch.rpow (3 * m / (4 * PI * DELTA * rho_cr_))%T (1 / 3) in
  (1 / c * r_delta)%T.

Definition get_rho_s (z_l : Tensor) (cosmology : Cosmology) (c : Tensor)
    : Tensor :=
  (DELTA / 3 * rho_cr cosmology z_l * c ** 3
     / (Torch.log (1 + c) - c / (1 + c)))%T.

Definition get_kappa_s (z_l z_s : Tensor) (cosmology : Cosmology)
    (m c : Tensor) : Tensor :=
  let Sigma_cr := get_Sigma_cr z_l z_s cosmology in
  (get_rho_s z_l cosmology c * get_r_s z_l cosmology m c / Sigma_cr)%T.

Definition alpha_hat (thx thy z_l z_s : Tensor) (cosmology : Cosmology)
    (thx0 thy0 m c : Tensor) : Tensor * Tensor :=
  let helper (thx thy : Tensor) :=
    let d_l := angular_diameter_dist cosmology z_l in
    let th := Torch.sqrt (thx ** 2 + thy ** 2)%T in
    let r_s := get_r_s z_l cosmology m c in
    let xi := (d_l * th * arcsec_to_rad)%T in
    let x := (xi / r_s)%T in
    let alpha :=
      (16 * PI * G_over_c2 * get_rho_s z_l cosmology c * r_s ** 3
         * _h x * rad_to_arcsec / xi)%T in
    ((alpha * thx / th)%T, (alpha * thy / th)%T) in
  transform_vector_fn thx0 thy0 helper thx thy.

Definition alpha (thx thy z_l z_s : Tensor) (cosmology : Cosmology)
    (thx0 thy0 m c : Tensor) : Tensor * Tensor :=
  let d_s := angular_diameter_dist cosmology z_s in
  let d_ls := angular_diameter_dist_z1z2 cosmology z_l z_s in
  let '(ahx, ahy) := alpha_hat thx thy z_l z_s cosmology thx0 thy0 m c in
  ((d_ls / d_s * ahx)%T, (d_ls / d_s * ahy)%T).

Definition kappa (thx thy z_l z_s : Tensor) (cosmology : Cosmology)
    (thx0 thy0 m c : Tensor) : Tensor :=
  let helper (thx thy : Tensor) :=
    let d_l := angular_diameter_dist cosmology z_l in
    let th := Torch.sqrt (thx ** 2 + thy ** 2)%T in
    let r_s := get_r_s z_l cosmology m c in
    let xi := (d_l * th * arcsec_to_rad)%T in
    let x := (xi / r_s)%T in
    let kappa_s := get_kappa_s z_l z_s cosmology m c in
    (2 * kappa_s * _f x / (x ** 2 - 1))%T in
  transform_scalar_fn thx0 thy0 helper thx thy.

Definition Psi (thx thy z_l z_s : Tensor) (cosmology : Cosmology)
    (thx0 thy0 m c : Tensor) : result Tensor :=
  let helper (thx thy : Tensor) :=
    let d_l := angular_diameter_dist cosmology z_l in
    let th := Torch.sqrt (thx ** 2 + thy ** 2)%T in
    let r_s := get_r_s z_l cosmology m c in
    let xi := (d_l * th * arcsec_to_rad)%T in
    let x := (xi / r_s)%T in
    let kappa_s := get_kappa_s z_l z_s cosmology m c in
    kappa_s_z_s <- call kappa_s z_s ;;
    Ok (4 * kappa_s_z_s * _g x)%T in
  transform_scalar_fn thx0 thy0 helper thx thy.

End Profile.

End NFW.

(** ** external_shear.py: the external shear field *)

Module ExternalShear.

Open Scope string_scope.

(** [str.lower] on the ASCII letters; other bytes are left alone. *)
Definition lower_ascii (ch : Ascii.ascii) : Ascii.ascii :=
  let n := Ascii.nat_of_ascii ch in
  if andb (Nat.leb 65 n) (Nat.leb n 90) then Ascii.ascii_of_nat (n + 32) else ch.

Fixpoint lower (s : string) : string :=
  match s with
  | EmptyString => EmptyString
  | String ch rest => String (lower_ascii ch) (lower rest)
  end.

(** Keyword arguments: the most recent binding of a name is first. *)
Definition kwargs : Type := list (string * Tensor).

Fixpoint get (kw : kwargs) (name : string) : option Tensor :=
  match kw with
  | [] => None
  | (k, v) :: rest => if String.eqb k name then Some v else get rest name
  end.

Definition set (kw : kwargs) (name : string) (v : Tensor) : kwargs :=
  (name, v) :: kw.

(** A keyword parameter of a method defaults to [None], and arithmetic on
    [None] raises [TypeError]. *)
Definition operand (kw : kwargs) (name : string) : result Tensor :=
  match get kw name with
  | Some v => Ok v
  | None => Raise TypeError
  end.

(** The value of the attribute [_convert_params]. *)
Inductive converter : Type :=
| do_nothing
| convert_polar_to_cartesian.

(** The state of an instance: the registered parameters with their bound
    values, in registration order, and the two attributes set by
    [__init__]. *)
Record ExternalShear : Type := {
  params : list (string * option Tensor);
  s : R;
  _convert_params : converter
}.

(** Modelled from the spec: [add_param] of [Parametrized] is not part of the
    sources; it registers a parameter with its bound value, and
    registration order is preserved. *)
Definition add_param (registered : list (string * option Tensor))
    (name : string) (value : option Tensor) : list (string * option Tensor) :=
  registered ++ [(name, value)].

(** [ThinLens.__init__] registers [z_l] first. *)
Definition ThinLens__init__ (z_l : option Tensor)
    : list (string * option Tensor) :=
  add_param [] "z_l" z_l.

Definition __init__ (z_l gamma_1 gamma_2 gamma phi : option Tensor)
    (parametrization : string) (s : R) : result ExternalShear :=
  let registered := ThinLens__init__ z_l in
  registered <-
    (if String.eqb (lower parametrization) "cartesian" then
       Ok (add_param (add_param registered "gamma_1" gamma_1) "gamma_2" gamma_2)
     else if String.eqb (lower parametrization) "polar" then
       Ok (add_param (add_param registered "gamma" gamma) "phi" phi)
     else Raise ValueError) ;;
  if String.eqb (lower parametrization) "cartesian" then
    Ok {| params := registered; s := s; _convert_params := do_nothing |}
  else
    (* the [elif] always holds here *)
    Ok {| params := registered; s := s;
          _convert_params := convert_polar_to_cartesian |}.

Definition _polar_to_cartesian (gamma phi : Tensor) : Tensor * Tensor :=
  let gamma_1 := (gamma * Torch.cos (2 * phi))%T in
  let gamma_2 := (gamma * Torch.sin (2 * phi))%T in
  (gamma_1, gamma_2).

Definition _cartesian_to_polar (gamma_1 gamma_2 : Tensor) : Tensor * Tensor :=
  let gamma := Torch.sqrt (gamma_1 ** 2 + gamma_2 ** 2)%T in
  let phi := (0.5 * Torch.atan2 gamma_2 gamma_1)%T in
  (gamma, phi).

Definition _convert_polar_to_cartesian (kw : kwargs) : result kwargs :=
  match get kw "gamma", get kw "phi" with
  | Some gamma, Some phi =>
      let '(gamma_1, gamma_2) := _polar_to_cartesian gamma phi in
      Ok (set (set kw "gamma_1" gamma_1) "gamma_2" gamma_2)
  | _, _ => Raise TypeError
  end.

(** The decorator [convert_params]: its wrapper evaluates
    [self._convert_params( *args, **kwargs)] on the positional and keyword
    arguments of the call.  In the cartesian case the attribute is the
    plain function [lambda self, *args, **kwargs: kwargs] stored on the
    instance: its first parameter takes the first positional argument, and
    a call without positional arguments raises [TypeError].  In the polar
    case it is a bound method, which accepts any positional arguments. *)
Definition convert_params (self : ExternalShear) (args : list Tensor)
    (kw : kwargs) : result kwargs :=
  match _convert_params self with
  | do_nothing =>
      match args with
      | [] => Raise TypeError
      | _ :: _ => Ok kw
      end
  | convert_polar_to_cartesian => _convert_polar_to_cartesian kw
  end.

(** Binding of one of the parameters [x], [y], [z_s] of a method: by
    position or by keyword; bound both ways or not at all, the call raises
    [TypeError]. *)
Definition parameter (positional : option Tensor) (kw : kwargs)
    (name : string) : result Tensor :=
  match positional, get kw name with
  | Some v, None => Ok v
  | None, Some v => Ok v
  | Some _, Some _ => Raise TypeError
  | None, None => Raise TypeError
  end.

Definition coordinates (args : list Tensor) (kw : kwargs)
    : result (Tensor * Tensor * Tensor) :=
  x <- parameter (nth_error args 0) kw "x" ;;
  y <- parameter (nth_error args 1) kw "y" ;;
  z_s <- parameter (nth_error args 2) kw "z_s" ;;
  Ok (x, y, z_s).

(** The override bundle restricted to this model: values by parameter
    name. *)
Definition Packed : Type := list (string * Tensor).

(** What the override bundle supplies for a parameter; [None] when the
    bundle is absent or silent about it. *)
Definition supplied (P : option Packed) (name : string) : option Tensor :=
  match P with
  | Some b => get b name
  | None => None
  end.

(** Modelled from the spec: the decorator [unpack] of [..parametrized] is
    not part of the sources.  For every registered parameter, in order, it
    takes the value the override bundle supplies, otherwise the bound value,
    and raises [MissingParameterError] when there is neither; the resolved
    values are handed to the method as keyword arguments. *)
Fixpoint resolve (registered : list (string * option Tensor))
    (P : option Packed) : result kwargs :=
  match registered with
  | [] => Ok []
  | (name, bound) :: rest =>
      v <- match supplied P name with
           | Some v => Ok v
           | None =>
               match bound with
               | Some v => Ok v
               | None => Raise MissingParameterError
               end
           end ;;
      kw <- resolve rest P ;;
      Ok ((name, v) :: kw)
  end.

Definition unpack (self : ExternalShear) (P : option Packed) : result kwargs :=
  resolve (params self) P.

(** The three methods, first their bodies once the coordinates and the
    keyword arguments are bound, then decorated. *)

Definition potential_kw (x y z_s : Tensor) (kw : kwargs) : result Tensor :=
  gamma_1 <- operand kw "gamma_1" ;;
  gamma_2 <- operand kw "gamma_2" ;;
  Ok (0.5 * gamma_1 * (x ** 2 - y ** 2) + gamma_2 * x * y)%T.

Definition reduced_deflection_angle_kw (x y z_s : Tensor) (kw : kwargs)
    : result (Tensor * Tensor) :=
  gamma_1 <- operand kw "gamma_1" ;;
  gamma_2 <- operand kw "gamma_2" ;;
  let a1 := (x * gamma_1 + y * gamma_2)%T in
  let a2 := (x * gamma_2 - y * gamma_1)%T in
  Ok (a1, a2).

Definition convergence_kw (x y z_s : Tensor) (kw : kwargs) : result Tensor :=
  Ok (Torch.zeros_like x).

(** The keyword arguments a decorated method receives in a call with the
    positional arguments [args] and the keyword arguments [keywords]:
    [unpack] adds the resolved parameters, then [convert_params] converts
    them. *)
Definition keyword_arguments (self : ExternalShear) (args : list Tensor)
    (keywords : kwargs) (P : option Packed) : result kwargs :=
  resolved <- unpack self P ;;
  convert_params self args (resolved ++ keywords)%list.

Definition decorated {A : Type}
    (method : Tensor -> Tensor -> Tensor -> kwargs -> result A)
    (self : ExternalShear) (args : list Tensor) (keywords : kwargs)
    (P : option Packed) : result A :=
  kw <- keyword_arguments self args keywords P ;;
  bound <- coordinates args kw ;;
  let '(x, y, z_s) := bound in
  method x y z_s kw.

(** The calls [self.potential(x, y, z_s, params=P)] and the like, with the
    coordinates passed by position. *)
Definition potential (self : ExternalShear) (x y z_s : Tensor)
    (P : option Packed) : result Tensor :=
  decorated potential_kw self [x; y; z_s] [] P.

Definition reduced_deflection_angle (self : ExternalShear) (x y z_s : Tensor)
    (P : option Packed) : result (Tensor * Tensor) :=
  decorated reduced_deflection_angle_kw self [x; y; z_s] [] P.

Definition convergence (self : ExternalShear) (x y z_s : Tensor)
    (P : option Packed) : result Tensor :=
  decorated convergence_kw self [x; y; z_s] [] P.

(** The calls [self.potential(x=x, y=y, z_s=z_s, params=P)] and the like,
    with the coordinates passed by keyword. *)
Definition by_keyword (x y z_s : Tensor) : kwargs :=
  [("x", x); ("y", y); ("z_s", z_s)].

Definition potential_by_keyword (self : ExternalShear) (x y z_s : Tensor)
    (P : option Packed) : result Tensor :=
  decorated potential_kw self [] (by_keyword x y z_s) P.

Definition reduced_deflection_angle_by_keyword (self : ExternalShear)
    (x y z_s : Tensor) (P : option Packed) : result (Tensor * Tensor) :=
  decorated reduced_deflection_angle_kw self [] (by_keyword x y z_s) P.

Definition convergence_by_keyword (self : ExternalShear) (x y z_s : Tensor)
    (P : option Packed) : result Tensor :=
  decorated convergence_kw self [] (by_keyword x y z_s) P.

(** The real number a call returns; [0] when it returns none. *)
Definition real_of (m : result Tensor) : R :=
  match m with
  | Ok v => Torch.value v
  | Raise _ => 0
  end.

End ExternalShear.

(** ** The branches of the NFW auxiliary functions on reals *)

Module NFWReal.

(** The branch terms of [_f] and [_h] on reals. *)
Definition T_gt (x : R) : R :=
  2 / R_sqrt.sqrt (x ^ 2 - 1) * atan (R_sqrt.sqrt ((x - 1) / (x + 1))).

Definition T_lt (x : R) : R :=
  2 / R_sqrt.sqrt (1 - x ^ 2)
  * Torch.atanh (R_sqrt.sqrt ((1 - x) / (1 + x))).

(** The branch terms of [_g] on reals. *)
Definition S_gt (x : R) : R :=
  2 * atan (R_sqrt.sqrt ((x - 1) / (x + 1))) ^ 2.

Definition S_lt (x : R) : R :=
  -2 * Torch.atanh (R_sqrt.sqrt ((1 - x) / (1 + x))) ^ 2.

(** The remainder of the inverse hyperbolic tangent below 1. *)
Definition remainder (x : R) : R :=
  ln ((1 + R_sqrt.sqrt ((1 - x) / (1 + x))) / 2) + ln (1 + x) / 2.

End NFWReal.

(** ** Limits of tensor-valued functions of a real variable *)

Module Limits.

(** [f x] is defined and tends to [l] as [x] tends to [x0] inside [D]. *)
Definition tends_to (f : R -> Tensor) (D : R -> Prop) (x0 l : R) : Prop :=
  forall eps : R, 0 < eps ->
    exists delta : R, 0 < delta /\
      forall x : R, D x -> Rabs (x - x0) < delta ->
        exists v : R, f x = Fin v /\ Rabs (v - l) < eps.

(** [f x] is defined and tends to [l] as [x] grows without bound. *)
Definition tends_to_at_infinity (f : R -> Tensor) (l : R) : Prop :=
  forall eps : R, 0 < eps ->
    exists M : R,
      forall x : R, M < x -> exists v : R, f x = Fin v /\ Rabs (v - l) < eps.

(** The two sides of a point. *)
Definition above (x0 : R) : R -> Prop := fun x => x0 < x.
Definition below (x0 : R) : R -> Prop := fun x => x < x0.

End Limits.

(** ** Concrete inputs *)

Module Examples.

(** No override bundle is ever passed in the examples of base.py. *)
Definition NoPacked : Type := unit.

(** The speed of light in Mpc/s and the arcsecond in radians. *)
Definition c_Mpc_s : R := 9.716e-15.
Definition arcsec_to_rad : R := PI / 648000.
Definition rad_to_arcsec : R := 648000 / PI.

(** A cosmology with fixed distances. *)
Definition flat_cosmology : Base.Cosmology NoPacked :=
  {| Base.angular_diameter_distance := fun z _ => Ok (1000 * z)%T;
     Base.angular_diameter_distance_z1z2 :=
       fun z1 z2 _ => Ok (1000 * (z2 - z1))%T;
     Base.Sigma_cr := fun _ _ _ => Ok (Fin 1) |}.

(** A thin lens at redshift 0.5 with the deflection and potential of a
    shear of 0.1. *)
Definition thin_shear : Base.ThinLens NoPacked :=
  {| Base.cosmology := flat_cosmology;
     Base.unpack := fun _ => Ok [Fin 0.5];
     Base.deflection_angle :=
       fun x y _ _ => Ok ((0.1 * x)%T, (-0.1 * y)%T);
     Base.convergence := fun x _ _ _ => Ok (Torch.zeros_like x);
     Base.potential :=
       fun x y _ _ => Ok (0.05 * (x ** 2 - y ** 2))%T |}.

(** A thick lens with the same deflection. *)
Definition thick_shear : Base.ThickLens NoPacked :=
  {| Base.thick_cosmology := flat_cosmology;
     Base.thick_deflection_angle :=
       fun x y _ _ => Ok ((0.1 * x)%T, (-0.1 * y)%T);
     Base.thick_Sigma := fun x _ _ _ => Ok (Torch.zeros_like x);
     Base.thick_time_delay := fun x _ _ _ => Ok (Torch.zeros_like x) |}.

(** The keyword arguments of a shear with gamma_1 = 0.1, gamma_2 = 0. *)
Definition shear_kwargs : ExternalShear.kwargs :=
  [("gamma_1"%string, Fin 0.1); ("gamma_2"%string, Fin 0.0)].

(** A halo of unit scale radius seen at unit angular distance: the
    critical density makes [r_delta = 1], the concentration is 1 and the
    lens distance is one radian of arcseconds. *)
Definition unit_cosmology : NFW.Cosmology :=
  {| NFW.rho_cr := fun _ => Fin (3 / (800 * PI));
     NFW.angular_diameter_dist := fun _ => Fin (648000 / PI);
     NFW.angular_diameter_dist_z1z2 := fun _ _ => Fin 1 |}.

Definition unit_Sigma_cr (z_l z_s : Tensor) (cosmology : NFW.Cosmology)
    : Tensor := Fin 1.

End Examples.

(** ** The shear conversions composed *)

Module ShearField.

(** The two components of a returned angle, for differentiation. *)
Definition first_of (m : result (Tensor * Tensor)) : R :=
  match m with
  | Ok (a, _) => Torch.value a
  | Raise _ => 0
  end.

Definition second_of (m : result (Tensor * Tensor)) : R :=
  match m with
  | Ok (_, b) => Torch.value b
  | Raise _ => 0
  end.

(** Polar to cartesian after cartesian to polar. *)
Definition there_and_back (gamma_1 gamma_2 : Tensor) : Tensor * Tensor :=
  let '(gamma, phi) := ExternalShear._cartesian_to_polar gamma_1 gamma_2 in
  ExternalShear._polar_to_cartesian gamma phi.

(** Cartesian to polar after polar to cartesian. *)
Definition back_and_there (gamma phi : Tensor) : Tensor * Tensor :=
  let '(gamma_1, gamma_2) := ExternalShear._polar_to_cartesian gamma phi in
  ExternalShear._cartesian_to_polar gamma_1 gamma_2.

End ShearField.

(** ** Further concrete inputs *)

Module MoreExamples.

(** The instance [ExternalShear(cosmology, z_l=0.5, gamma_1=0.1,
    gamma_2=0.0)], as its constructor leaves it. *)
Definition cartesian_shear : ExternalShear.ExternalShear :=
  {| ExternalShear.params :=
       [("z_l"%string, Some (Fin 0.5)); ("gamma_1"%string, Some (Fin 0.1));
        ("gamma_2"%string, Some (Fin 0.0))];
     ExternalShear.s := 0;
     ExternalShear._convert_params := ExternalShear.do_nothing |}.

(** A thin lens whose redshift is neither bound nor supplied. *)
Definition unbound_lens : Base.ThinLens Examples.NoPacked :=
  {| Base.cosmology := Examples.flat_cosmology;
     Base.unpack := fun _ => Raise MissingParameterError;
     Base.deflection_angle :=
       fun x y _ _ => Ok ((0.1 * x)%T, (-0.1 * y)%T);
     Base.convergence := fun x _ _ _ => Ok (Torch.zeros_like x);
     Base.potential :=
       fun x y _ _ => Ok (0.05 * (x ** 2 - y ** 2))%T |}.

(** Polar keyword arguments together with a stale cartesian component. *)
Definition polar_kwargs : ExternalShear.kwargs :=
  [("gamma"%string, Fin 0.1); ("phi"%string, Fin 0);
   ("gamma_1"%string, Fin 5)].

(** Newton's constant over c^2, in Mpc per solar mass. *)
Definition G_over_c2 : R := 4.79e-20.

(** The characteristic density of the unit halo of [Examples]. *)
Definition unit_rho_s : R :=
  200 / 3 * (3 / (800 * PI)) * 1 ^ 3 / (ln (1 + 1) - 1 / (1 + 1)).

(** The deflection of the unit halo at twice its scale radius. *)
Definition unit_alpha : R :=
  16 * PI * G_over_c2 * unit_rho_s * 1 ^ 3 * (ln (2 / 2) + NFWReal.T_gt 2)
  * Examples.rad_to_arcsec / (648000 / PI * 2 * Examples.arcsec_to_rad).

End MoreExamples.

(** * Properties *)

(** ** Tensor arithmetic *)

Module TorchFacts.

(** The literal [0.5]. *)
Lemma half_literal : 0.5 = 1 / 2.
Proof. lra. Qed.

Lemma pow_2_zero (r : R) : r ^ 2 = 0 -> r = 0.
Proof. intro H. nra. Qed.

(** Decide every zero test of a goal on tensor elements, as they appear. *)
Ltac tensor_cases :=
  repeat
    (cbn [Torch.add Torch.sub Torch.mul Torch.div Torch.pow Torch.lift1
          Torch.lift2];
     match goal with
     | |- context [Req_dec_T ?a 0] => destruct (Req_dec_T a 0)
     end);
  cbn [Torch.add Torch.sub Torch.mul Torch.div Torch.pow Torch.lift1
       Torch.lift2].

(** Close a case whose zero tests contradict each other. *)
Ltac absurd_case :=
  exfalso;
  match goal with
  | H : ?r ^ 2 = 0, N : ?r <> 0 |- _ => exact (N (pow_2_zero r H))
  | H : ?r = 0, N : ?r ^ 2 <> 0 |- _ => apply N; rewrite H; ring
  | H : _ = 0 |- _ => lra
  end.

Lemma div_fin (a b : R) : b <> 0 -> (Fin a / Fin b)%T = Fin (a / b).
Proof.
  intro Hb. cbn [Torch.div].
  destruct (Req_dec_T b 0) as [H|_]; [contradiction|reflexivity].
Qed.

Lemma sqrt_fin (a : R) : 0 <= a -> Torch.sqrt (Fin a) = Fin (R_sqrt.sqrt a).
Proof.
  intro Ha. cbn [Torch.sqrt].
  destruct (Rle_dec 0 a) as [_|H]; [reflexivity|contradiction].
Qed.

Lemma log_fin (a : R) : 0 < a -> Torch.log (Fin a) = Fin (ln a).
Proof.
  intro Ha. cbn [Torch.log].
  destruct (Rlt_dec 0 a) as [_|H]; [reflexivity|contradiction].
Qed.

Lemma arctanh_fin (a : R) :
  -1 < a < 1 -> Torch.arctanh (Fin a) = Fin (Torch.atanh a).
Proof.
  intros [Hl Hr]. cbn [Torch.arctanh].
  destruct (Rlt_dec (-1) a) as [_|H]; [|contradiction].
  destruct (Rlt_dec a 1) as [_|H]; [reflexivity|contradiction].
Qed.

Lemma gt_true (a b : R) : b < a -> Torch.gt (Fin a) (Fin b) = true.
Proof.
  intro H. cbn [Torch.gt].
  destruct (Rlt_dec b a) as [_|N]; [reflexivity|contradiction].
Qed.

Lemma gt_false (a b : R) : a <= b -> Torch.gt (Fin a) (Fin b) = false.
Proof.
  intro H. cbn [Torch.gt].
  destruct (Rlt_dec b a) as [N|_]; [lra|reflexivity].
Qed.

End TorchFacts.

(** ** base.py *)

Module BaseFacts.

Import Base TorchFacts.

Arguments raytrace {Packed}.
Arguments thick_raytrace {Packed}.
Arguments time_delay {Packed}.
Arguments deflection_angle {Packed}.
Arguments thick_deflection_angle {Packed}.
Arguments potential {Packed}.
Arguments unpack {Packed}.
Arguments cosmology {Packed}.
Arguments angular_diameter_distance {Packed}.
Arguments angular_diameter_distance_z1z2 {Packed}.

(** C5: for a thin and for a thick lens, [raytrace] returns the coordinates
    minus the deflection angle that [deflection_angle] returns for them. *)
Theorem raytrace_subtracts_deflection :
  forall (Packed : Type) (thin : ThinLens Packed) (thick : ThickLens Packed)
         (x y z_s : Tensor) (P : option Packed) (ax ay bx by_ : Tensor),
    deflection_angle thin x y z_s P = Ok (ax, ay) ->
    thick_deflection_angle thick x y z_s P = Ok (bx, by_) ->
    raytrace thin x y z_s P = Ok ((x - ax)%T, (y - ay)%T) /\
    thick_raytrace thick x y z_s P = Ok ((x - bx)%T, (y - by_)%T).
Proof.
  intros Packed thin thick x y z_s P ax ay bx by_ Hthin Hthick.
  unfold raytrace, thick_raytrace.
  rewrite Hthin, Hthick. split; reflexivity.
Qed.

(** A failing [deflection_angle] makes [raytrace] fail the same way. *)
Lemma raytrace_propagates :
  forall (Packed : Type) (thin : ThinLens Packed)
         (x y z_s : Tensor) (P : option Packed) (e : exn),
    deflection_angle thin x y z_s P = Raise e ->
    raytrace thin x y z_s P = Raise e.
Proof.
  intros Packed thin x y z_s P e H. unfold raytrace. rewrite H. reflexivity.
Qed.

(** C4: when [z_l], the distances, the deflection angle and the potential
    resolve, [time_delay] returns
    (1+z_l)/c * (D_s*D_l/D_ls) * (1/2*(D_ls/D_s)^2*(ax^2+ay^2) - psi)
    * arcsec_to_rad^2. *)
Theorem time_delay_formula :
  forall (Packed : Type) (c_Mpc_s arcsec_to_rad : R) (self : ThinLens Packed)
         (x y z_s : Tensor) (P : option Packed)
         (z_l : Tensor) (others : list Tensor)
         (D_l D_s D_ls ax ay psi : Tensor),
    unpack self P = Ok (z_l :: others) ->
    angular_diameter_distance (cosmology self) z_l P = Ok D_l ->
    angular_diameter_distance (cosmology self) z_s P = Ok D_s ->
    angular_diameter_distance_z1z2 (cosmology self) z_l z_s P = Ok D_ls ->
    deflection_angle self x y z_s P = Ok (ax, ay) ->
    potential self x y z_s P = Ok psi ->
    time_delay c_Mpc_s arcsec_to_rad self x y z_s P =
    Ok ((1 + z_l) / c_Mpc_s * (D_s * D_l / D_ls)
        * (1 / 2 * (D_ls / D_s) ** 2 * (ax ** 2 + ay ** 2) - psi)
        * arcsec_to_rad ** 2)%T.
Proof.
  intros Packed c arcsec self x y z_s P z_l others D_l D_s D_ls ax ay psi
         Hz Hl Hs Hls Ha Hpsi.
  unfold time_delay.
  rewrite Hz. cbn [bind item0].
  rewrite Hl. cbn [bind]. rewrite Hs. cbn [bind]. rewrite Hls. cbn [bind].
  rewrite Ha. cbn [bind]. rewrite Hpsi. cbn [bind].
  f_equal.
  destruct z_l as [zl|], D_l as [dl|], D_s as [ds|], D_ls as [dls|],
    ax as [ax|], ay as [ay|], psi as [psi|];
    tensor_cases; try reflexivity; try absurd_case.
  apply (f_equal Torch.Fin). rewrite half_literal. field. auto.
Qed.

(** Concrete runs. *)

Import Examples.

Lemma raytrace_subtracts_deflection_witness :
  raytrace thin_shear 1 1 1.5 None = Ok ((1 - 0.1 * 1)%T, (1 - -0.1 * 1)%T) /\
  thick_raytrace thick_shear 1 1 1.5 None
  = Ok ((1 - 0.1 * 1)%T, (1 - -0.1 * 1)%T).
Proof.
  apply (raytrace_subtracts_deflection NoPacked thin_shear thick_shear
           1 1 1.5 None); reflexivity.
Defined.

Lemma time_delay_formula_witness :
  time_delay c_Mpc_s arcsec_to_rad thin_shear 1 1 1.5 None =
  Ok ((1 + 0.5) / c_Mpc_s * (1000 * 1.5 * (1000 * 0.5) / (1000 * (1.5 - 0.5)))
      * (1 / 2 * (1000 * (1.5 - 0.5) / (1000 * 1.5)) ** 2
           * ((0.1 * 1) ** 2 + (-0.1 * 1) ** 2)
         - 0.05 * (1 ** 2 - 1 ** 2))
      * arcsec_to_rad ** 2)%T.
Proof.
  apply (time_delay_formula NoPacked c_Mpc_s arcsec_to_rad thin_shear
           1 1 1.5 None 0.5 []); reflexivity.
Defined.

End BaseFacts.

(** ** The two-argument arctangent *)

Module Atan2Facts.

Lemma atan2R_bounds (y x : R) :
  - PI < Torch.atan2R y x <= PI.
Proof.
  unfold Torch.atan2R.
  pose proof PI_RGT_0 as Hpi.
  pose proof (atan_bound (y / x)) as Hb.
  destruct (Rlt_dec 0 x) as [Hx|Hx]; [lra|].
  destruct (Rlt_dec x 0) as [Hx'|Hx'].
  - destruct (Rle_dec 0 y) as [Hy|Hy].
    + assert (Hq : y / x <= 0).
      { unfold Rdiv. assert (/ x < 0) by (apply Rinv_lt_0_compat; exact Hx').
        nra. }
      assert (atan (y / x) <= 0).
      { destruct Hq as [Hq|Hq].
        - left. rewrite <- atan_0. apply atan_increasing. exact Hq.
        - rewrite Hq, atan_0. lra. }
      lra.
    + assert (Hq : 0 < y / x).
      { unfold Rdiv. assert (/ x < 0) by (apply Rinv_lt_0_compat; exact Hx').
        nra. }
      assert (0 < atan (y / x)).
      { rewrite <- atan_0. apply atan_increasing. exact Hq. }
      lra.
  - destruct (Rlt_dec 0 y); [lra|].
    destruct (Rlt_dec y 0); lra.
Qed.

Lemma sqrt_1_plus_sqr (x y : R) :
  x <> 0 -> R_sqrt.sqrt (1 + (y / x)²) = R_sqrt.sqrt (x ^ 2 + y ^ 2) / Rabs x.
Proof.
  intro Hx.
  assert (Ha : 0 < Rabs x) by (apply Rabs_pos_lt; exact Hx).
  replace (1 + (y / x)²) with ((x ^ 2 + y ^ 2) / (Rabs x) ^ 2).
  - rewrite sqrt_div_alt by (apply pow_lt; exact Ha).
    rewrite sqrt_pow2 by lra. reflexivity.
  - unfold Rsqr. rewrite pow2_abs. field. exact Hx.
Qed.

(** The angle that [atan2R] returns has the cosine and sine of the point. *)
Lemma atan2R_cos_sin (y x : R) :
  x ^ 2 + y ^ 2 <> 0 ->
  Rtrigo_def.cos (Torch.atan2R y x) = x / R_sqrt.sqrt (x ^ 2 + y ^ 2) /\
  Rtrigo_def.sin (Torch.atan2R y x) = y / R_sqrt.sqrt (x ^ 2 + y ^ 2).
Proof.
  intro Hnz.
  assert (Hr : 0 < R_sqrt.sqrt (x ^ 2 + y ^ 2)).
  { apply sqrt_lt_R0. nra. }
  unfold Torch.atan2R.
  destruct (Rlt_dec 0 x) as [Hx|Hx].
  - rewrite cos_atan, sin_atan, sqrt_1_plus_sqr by lra.
    rewrite Rabs_pos_eq by lra. split; field; lra.
  - destruct (Rlt_dec x 0) as [Hx'|Hx'].
    + assert (Hc : Rtrigo_def.cos (atan (y / x)) =
                   - x / R_sqrt.sqrt (x ^ 2 + y ^ 2)).
      { rewrite cos_atan, sqrt_1_plus_sqr by lra.
        rewrite Rabs_left by lra. field. lra. }
      assert (Hs : Rtrigo_def.sin (atan (y / x)) =
                   - y / R_sqrt.sqrt (x ^ 2 + y ^ 2)).
      { rewrite sin_atan, sqrt_1_plus_sqr by lra.
        rewrite Rabs_left by lra. field. lra. }
      destruct (Rle_dec 0 y).
      * rewrite neg_cos, neg_sin, Hc, Hs. split; field; lra.
      * replace (atan (y / x) - PI) with (- (- atan (y / x) + PI)) by ring.
        rewrite cos_neg, sin_neg, neg_cos, neg_sin, cos_neg, sin_neg, Hc, Hs.
        split; field; lra.
    + assert (x = 0) by lra. subst x.
      replace (0 ^ 2 + y ^ 2) with (y ^ 2) in * by ring.
      destruct (Rlt_dec 0 y) as [Hy|Hy].
      * rewrite sqrt_pow2 by lra. rewrite cos_PI2, sin_PI2.
        split; field; lra.
      * destruct (Rlt_dec y 0) as [Hy'|Hy'].
        -- rewrite cos_neg, sin_neg, cos_PI2, sin_PI2.
           replace (y ^ 2) with ((- y) ^ 2) by ring.
           rewrite sqrt_pow2 by lra. split; field; lra.
        -- exfalso. apply Hnz. assert (y = 0) by lra. subst y. ring.
Qed.

(** Periodicity for an integer number of turns. *)
Lemma cos_sin_turns (x : R) (k : Z) :
  Rtrigo_def.cos (x + 2 * IZR k * PI) = Rtrigo_def.cos x /\
  Rtrigo_def.sin (x + 2 * IZR k * PI) = Rtrigo_def.sin x.
Proof.
  destruct k as [|p|p].
  - replace (x + 2 * 0 * PI) with x by ring. split; reflexivity.
  - replace (IZR (Z.pos p)) with (INR (Pos.to_nat p))
      by (rewrite INR_IZR_INZ, positive_nat_Z; reflexivity).
    split; [apply cos_period | apply sin_period].
  - set (n := Pos.to_nat p).
    assert (Hx : x = (x + 2 * IZR (Z.neg p) * PI) + 2 * INR n * PI).
    { unfold n. rewrite INR_IZR_INZ, positive_nat_Z.
      change (Z.neg p) with (- Z.pos p)%Z. rewrite opp_IZR. ring. }
    split.
    + rewrite Hx at 2. rewrite cos_period. reflexivity.
    + rewrite Hx at 2. rewrite sin_period. reflexivity.
Qed.

(** Two angles with the same cosine and sine differ by whole turns. *)
Lemma same_direction (a b : R) :
  Rtrigo_def.cos a = Rtrigo_def.cos b ->
  Rtrigo_def.sin a = Rtrigo_def.sin b ->
  exists k : Z, a = b + 2 * IZR k * PI.
Proof.
  intros Hc Hs.
  assert (Hsin : Rtrigo_def.sin (a - b) = 0).
  { rewrite sin_minus, Hc, Hs. ring. }
  assert (Hcos : Rtrigo_def.cos (a - b) = 1).
  { rewrite cos_minus, Hc, Hs.
    pose proof (sin2_cos2 b) as H. unfold Rsqr in H. lra. }
  destruct (sin_eq_0_0 _ Hsin) as [k Hk].
  destruct (Z.Even_or_Odd k) as [[j Hj]|[j Hj]].
  - exists j. subst k. rewrite mult_IZR in Hk. lra.
  - exfalso. subst k. rewrite plus_IZR, mult_IZR in Hk.
    assert (Hab : a - b = PI + 2 * IZR j * PI) by lra.
    rewrite Hab in Hcos.
    destruct (cos_sin_turns PI j) as [Hp _].
    rewrite Hp, cos_PI in Hcos. lra.
Qed.

(** [atan2R] recovers the direction of a point given in polar form. *)
Lemma atan2R_polar (r theta : R) :
  0 < r ->
  exists k : Z,
    Torch.atan2R (r * Rtrigo_def.sin theta) (r * Rtrigo_def.cos theta) =
    theta + 2 * IZR k * PI.
Proof.
  intro Hr.
  pose proof (sin2_cos2 theta) as H1. unfold Rsqr in H1.
  assert (Hsq : (r * Rtrigo_def.cos theta) ^ 2 + (r * Rtrigo_def.sin theta) ^ 2
                = r ^ 2) by nra.
  assert (Hnz : (r * Rtrigo_def.cos theta) ^ 2
                + (r * Rtrigo_def.sin theta) ^ 2 <> 0) by nra.
  destruct (atan2R_cos_sin _ _ Hnz) as [Hc Hs].
  rewrite Hsq, sqrt_pow2 in Hc, Hs by lra.
  apply same_direction.
  - rewrite Hc. field. lra.
  - rewrite Hs. field. lra.
Qed.

End Atan2Facts.

(** ** external_shear.py *)

Module ExternalShearFacts.

Import ExternalShear Examples MoreExamples.
Open Scope string_scope.

(** The derivative of a polynomial of degree two. *)
Lemma derivable_pt_lim_quadratic (a b c x : R) :
  derivable_pt_lim (fun t => a * t ^ 2 + b * t + c) x (2 * a * x + b).
Proof.
  intros eps Heps.
  assert (Hd : 0 < eps / (Rabs a + 1)).
  { apply Rdiv_lt_0_compat; [exact Heps|]. pose proof (Rabs_pos a). lra. }
  exists (mkposreal _ Hd). intros h Hh Hlt. cbn [pos] in Hlt.
  replace ((a * (x + h) ^ 2 + b * (x + h) + c - (a * x ^ 2 + b * x + c)) / h
           - (2 * a * x + b)) with (a * h) by (field; exact Hh).
  rewrite Rabs_mult.
  pose proof (Rabs_pos a) as Ha. pose proof (Rabs_pos h) as Hh0.
  apply Rle_lt_trans with ((Rabs a + 1) * Rabs h); [nra|].
  apply Rlt_le_trans with ((Rabs a + 1) * (eps / (Rabs a + 1))).
  - apply Rmult_lt_compat_l; lra.
  - right. field. lra.
Qed.

Lemma potential_kw_value (x y g1 g2 : R) (z_s : Tensor) (kw : kwargs) :
  get kw "gamma_1" = Some (Fin g1) ->
  get kw "gamma_2" = Some (Fin g2) ->
  potential_kw (Fin x) (Fin y) z_s kw =
  Ok (Fin (1 / 2 * g1 * (x ^ 2 - y ^ 2) + g2 * x * y)).
Proof.
  intros H1 H2. unfold potential_kw, operand. rewrite H1, H2.
  cbn. rewrite TorchFacts.half_literal. reflexivity.
Qed.

Lemma deflection_kw_value (x y g1 g2 : R) (z_s : Tensor) (kw : kwargs) :
  get kw "gamma_1" = Some (Fin g1) ->
  get kw "gamma_2" = Some (Fin g2) ->
  reduced_deflection_angle_kw (Fin x) (Fin y) z_s kw =
  Ok (Fin (x * g1 + y * g2), Fin (x * g2 - y * g1)).
Proof.
  intros H1 H2. unfold reduced_deflection_angle_kw, operand.
  rewrite H1, H2. reflexivity.
Qed.

(** The keyword arguments of a call depend on its positional arguments
    only through their presence. *)
Lemma keyword_arguments_positional (self : ExternalShear)
    (a b : Tensor) (rest rest' : list Tensor) (keywords : kwargs)
    (P : option Packed) :
  keyword_arguments self (a :: rest) keywords P
  = keyword_arguments self (b :: rest') keywords P.
Proof.
  unfold keyword_arguments, convert_params.
  destruct (unpack self P); [|reflexivity]. cbn [bind].
  destruct (_convert_params self); reflexivity.
Qed.

(** A call with the coordinates by position hands them to the method
    together with the keyword arguments of the call. *)
Lemma decorated_by_position {A : Type}
    (method : Tensor -> Tensor -> Tensor -> kwargs -> result A)
    (self : ExternalShear) (x y z_s x' y' z_s' : Tensor)
    (P : option Packed) (kw : kwargs) :
  keyword_arguments self [x'; y'; z_s'] [] P = Ok kw ->
  get kw "x" = None -> get kw "y" = None -> get kw "z_s" = None ->
  decorated method self [x; y; z_s] [] P = method x y z_s kw.
Proof.
  intros Hkw Hx Hy Hz. unfold decorated.
  rewrite (keyword_arguments_positional self x x' [y; z_s] [y'; z_s'] [] P).
  rewrite Hkw. cbn [bind]. unfold coordinates, parameter.
  cbn [nth_error]. rewrite Hx, Hy, Hz. reflexivity.
Qed.

(** C6: for an instance and an override bundle whose call resolves the
    shear components to [gamma_1] and [gamma_2], [potential] returns
    1/2*gamma_1*(x^2-y^2) + gamma_2*x*y, [reduced_deflection_angle] returns
    (x*gamma_1 + y*gamma_2, x*gamma_2 - y*gamma_1), and the two components
    are the partial derivatives in x and y of the potential returned. *)
Theorem shear_deflection_is_gradient :
  forall (self : ExternalShear) (P : option Packed) (kw : kwargs)
         (x y g1 g2 : R) (z_s : Tensor),
    keyword_arguments self [Fin x; Fin y; z_s] [] P = Ok kw ->
    get kw "gamma_1" = Some (Fin g1) ->
    get kw "gamma_2" = Some (Fin g2) ->
    get kw "x" = None -> get kw "y" = None -> get kw "z_s" = None ->
    potential self (Fin x) (Fin y) z_s P =
      Ok (Fin (1 / 2 * g1 * (x ^ 2 - y ^ 2) + g2 * x * y)) /\
    reduced_deflection_angle self (Fin x) (Fin y) z_s P =
      Ok (Fin (x * g1 + y * g2), Fin (x * g2 - y * g1)) /\
    derivable_pt_lim
      (fun t => real_of (potential self (Fin t) (Fin y) z_s P))
      x (x * g1 + y * g2) /\
    derivable_pt_lim
      (fun t => real_of (potential self (Fin x) (Fin t) z_s P))
      y (x * g2 - y * g1).
Proof.
  intros self P kw x y g1 g2 z_s Hkw H1 H2 Hx Hy Hz.
  assert (Hpot : forall u v : R,
             potential self (Fin u) (Fin v) z_s P =
             Ok (Fin (1 / 2 * g1 * (u ^ 2 - v ^ 2) + g2 * u * v))).
  { intros u v. unfold potential.
    rewrite (decorated_by_position potential_kw self _ _ _ _ _ _ P kw
               Hkw Hx Hy Hz).
    apply potential_kw_value; assumption. }
  split; [apply Hpot|].
  split.
  { unfold reduced_deflection_angle.
    rewrite (decorated_by_position reduced_deflection_angle_kw self
               _ _ _ _ _ _ P kw Hkw Hx Hy Hz).
    apply deflection_kw_value; assumption. }
  split.
  - apply derivable_pt_lim_ext
      with (f := fun t => (1 / 2 * g1) * t ^ 2 + (g2 * y) * t
                          + (- (1 / 2) * g1 * y ^ 2)).
    + intro t. rewrite Hpot. cbn. ring.
    + replace (x * g1 + y * g2) with (2 * (1 / 2 * g1) * x + g2 * y) by field.
      apply derivable_pt_lim_quadratic.
  - apply derivable_pt_lim_ext
      with (f := fun t => (- (1 / 2) * g1) * t ^ 2 + (g2 * x) * t
                          + (1 / 2 * g1 * x ^ 2)).
    + intro t. rewrite Hpot. cbn. ring.
    + replace (x * g2 - y * g1) with (2 * (- (1 / 2) * g1) * y + g2 * x)
        by field.
      apply derivable_pt_lim_quadratic.
Qed.

Lemma cartesian_to_polar_value (g1 g2 : R) :
  _cartesian_to_polar (Fin g1) (Fin g2) =
  (Fin (R_sqrt.sqrt (g1 ^ 2 + g2 ^ 2)), Fin (1 / 2 * Torch.atan2R g2 g1)).
Proof.
  unfold _cartesian_to_polar.
  cbn [Torch.sqrt Torch.add Torch.mul Torch.pow Torch.atan2 Torch.lift1
       Torch.lift2].
  destruct (Rle_dec 0 (g1 ^ 2 + g2 ^ 2)) as [_|Hn]; [|exfalso; nra].
  rewrite TorchFacts.half_literal. reflexivity.
Qed.

(** C7: for a magnitude [0 < gamma] and any angle [phi], converting to
    cartesian components and back returns the magnitude [gamma] and an
    angle that differs from [phi] by a multiple of PI. *)
Theorem polar_cartesian_roundtrip :
  forall gamma phi : R,
    0 < gamma ->
    exists (phi' : R) (k : Z),
      (let '(gamma_1, gamma_2) := _polar_to_cartesian (Fin gamma) (Fin phi) in
       _cartesian_to_polar gamma_1 gamma_2) = (Fin gamma, Fin phi') /\
      phi' = phi + IZR k * PI.
Proof.
  intros gamma phi Hg.
  destruct (Atan2Facts.atan2R_polar gamma (2 * phi) Hg) as [k Hk].
  exists (1 / 2 * Torch.atan2R (gamma * Rtrigo_def.sin (2 * phi))
                               (gamma * Rtrigo_def.cos (2 * phi))), k.
  split.
  - unfold _polar_to_cartesian.
    cbn [Torch.mul Torch.cos Torch.sin Torch.lift1 Torch.lift2].
    rewrite cartesian_to_polar_value.
    f_equal. apply (f_equal Torch.Fin).
    pose proof (sin2_cos2 (2 * phi)) as H1. unfold Rsqr in H1.
    replace ((gamma * Rtrigo_def.cos (2 * phi)) ^ 2
             + (gamma * Rtrigo_def.sin (2 * phi)) ^ 2) with (gamma ^ 2) by nra.
    apply sqrt_pow2. lra.
  - rewrite Hk. field.
Qed.

(** C10: for all real components, [_cartesian_to_polar] returns the
    magnitude sqrt(gamma_1^2 + gamma_2^2), which is not negative, and the
    angle atan2(gamma_2, gamma_1)/2, which lies in (-PI/2, PI/2]. *)
Theorem cartesian_to_polar_range :
  forall g1 g2 : R,
    exists gamma phi : R,
      _cartesian_to_polar (Fin g1) (Fin g2) = (Fin gamma, Fin phi) /\
      gamma = R_sqrt.sqrt (g1 ^ 2 + g2 ^ 2) /\
      phi = 1 / 2 * Torch.atan2R g2 g1 /\
      0 <= gamma /\
      - (PI / 2) < phi <= PI / 2.
Proof.
  intros g1 g2.
  exists (R_sqrt.sqrt (g1 ^ 2 + g2 ^ 2)), (1 / 2 * Torch.atan2R g2 g1).
  split; [apply cartesian_to_polar_value|].
  split; [reflexivity|]. split; [reflexivity|].
  split; [apply sqrt_pos|].
  pose proof (Atan2Facts.atan2R_bounds g2 g1). lra.
Qed.

Lemma resolve_missing (registered : list (string * option Tensor))
    (P : option Packed) (name : string) :
  In (name, None) registered ->
  supplied P name = None ->
  resolve registered P = Raise MissingParameterError.
Proof.
  intros Hin Hsup. induction registered as [|[n b] rest IH]; [contradiction|].
  cbn [resolve]. destruct Hin as [Heq|Hin].
  - inversion Heq; subst n b. rewrite Hsup. reflexivity.
  - specialize (IH Hin).
    destruct (supplied P n) as [v|].
    + cbn [bind]. rewrite IH. reflexivity.
    + destruct b as [v|]; [|reflexivity]. cbn [bind]. rewrite IH. reflexivity.
Qed.

(** C8: an external shear constructed in the cartesian parametrization with
    neither [gamma_1] nor [gamma_2] bound raises [MissingParameterError]
    from [convergence], [potential] and [reduced_deflection_angle] whenever
    the override bundle is absent or lacks one of the two. *)
Theorem unbound_shear_raises_missing_parameter :
  forall (z_l gamma phi : option Tensor) (s : R) (x y z_s : Tensor)
         (P : option Packed),
    supplied P "gamma_1" = None \/ supplied P "gamma_2" = None ->
    exists self : ExternalShear,
      __init__ z_l None None gamma phi "cartesian" s = Ok self /\
      convergence self x y z_s P = Raise MissingParameterError /\
      potential self x y z_s P = Raise MissingParameterError /\
      reduced_deflection_angle self x y z_s P = Raise MissingParameterError.
Proof.
  intros z_l gamma phi s x y z_s P Hsup.
  eexists. split; [reflexivity|].
  assert (Hres : resolve [("z_l", z_l); ("gamma_1", None); ("gamma_2", None)] P
                 = Raise MissingParameterError).
  { destruct Hsup as [H|H].
    - apply resolve_missing with (name := "gamma_1"); [cbn; auto|exact H].
    - apply resolve_missing with (name := "gamma_2"); [cbn; auto|exact H]. }
  unfold convergence, potential, reduced_deflection_angle, decorated,
    keyword_arguments, unpack.
  cbn [params ThinLens__init__ add_param app].
  rewrite Hres. repeat split; reflexivity.
Qed.

(** C9, as the source has it: a parametrization that is neither
    "cartesian" nor "polar" once lowered makes the constructor raise
    [ValueError]. *)
Theorem invalid_parametrization_raises_ValueError :
  forall (z_l gamma_1 gamma_2 gamma phi : option Tensor)
         (parametrization : string) (s : R),
    lower parametrization <> "cartesian"%string ->
    lower parametrization <> "polar"%string ->
    __init__ z_l gamma_1 gamma_2 gamma phi parametrization s = Raise ValueError.
Proof.
  intros z_l gamma_1 gamma_2 gamma phi p s Hc Hp.
  unfold __init__.
  apply String.eqb_neq in Hc. apply String.eqb_neq in Hp.
  rewrite Hc, Hp. reflexivity.
Qed.

(** C9 fails as stated: the exception raised is not [ConfigurationError]. *)
Lemma invalid_parametrization_not_ConfigurationError :
  __init__ None None None None None "elliptical" 0 = Raise ValueError /\
  __init__ None None None None None "elliptical" 0 <> Raise ConfigurationError.
Proof.
  split; [reflexivity|]. cbv. discriminate.
Qed.

(** Concrete runs. *)

Lemma shear_deflection_is_gradient_witness :
  keyword_arguments cartesian_shear [Fin 1; Fin 1; Fin 1.5] [] None
    = Ok [("z_l", Fin 0.5); ("gamma_1", Fin 0.1); ("gamma_2", Fin 0.0)] /\
  potential cartesian_shear (Fin 1) (Fin 1) (Fin 1.5) None =
    Ok (Fin (1 / 2 * 0.1 * (1 ^ 2 - 1 ^ 2) + 0.0 * 1 * 1)) /\
  reduced_deflection_angle cartesian_shear (Fin 1) (Fin 1) (Fin 1.5) None =
    Ok (Fin (1 * 0.1 + 1 * 0.0), Fin (1 * 0.0 - 1 * 0.1)) /\
  derivable_pt_lim
    (fun t => real_of (potential cartesian_shear (Fin t) (Fin 1) (Fin 1.5)
                         None))
    1 (1 * 0.1 + 1 * 0.0) /\
  derivable_pt_lim
    (fun t => real_of (potential cartesian_shear (Fin 1) (Fin t) (Fin 1.5)
                         None))
    1 (1 * 0.0 - 1 * 0.1).
Proof.
  split; [reflexivity|].
  apply (shear_deflection_is_gradient cartesian_shear None
           [("z_l", Fin 0.5); ("gamma_1", Fin 0.1); ("gamma_2", Fin 0.0)]
           1 1 0.1 0.0 (Fin 1.5)); reflexivity.
Defined.

Lemma polar_cartesian_roundtrip_witness :
  0 < 1 /\
  exists (phi' : R) (k : Z),
    (let '(gamma_1, gamma_2) := _polar_to_cartesian (Fin 1) (Fin 0) in
     _cartesian_to_polar gamma_1 gamma_2) = (Fin 1, Fin phi') /\
    phi' = 0 + IZR k * PI.
Proof.
  split; [exact Rlt_0_1|].
  apply (polar_cartesian_roundtrip 1 0). exact Rlt_0_1.
Defined.

Lemma unbound_shear_raises_missing_parameter_witness :
  (supplied None "gamma_1" = None \/ supplied None "gamma_2" = None) /\
  exists self : ExternalShear,
    __init__ (Some (Fin 0.5)) None None None None "cartesian" 0 = Ok self /\
    convergence self (Fin 1) (Fin 1) (Fin 1.5) None
      = Raise MissingParameterError /\
    potential self (Fin 1) (Fin 1) (Fin 1.5) None
      = Raise MissingParameterError /\
    reduced_deflection_angle self (Fin 1) (Fin 1) (Fin 1.5) None
      = Raise MissingParameterError.
Proof.
  split; [left; reflexivity|].
  apply (unbound_shear_raises_missing_parameter
           (Some (Fin 0.5)) None None 0 (Fin 1) (Fin 1) (Fin 1.5) None).
  left. reflexivity.
Defined.

Lemma invalid_parametrization_raises_ValueError_witness :
  lower "Elliptical" <> "cartesian" /\
  lower "Elliptical" <> "polar" /\
  __init__ None None None None None "Elliptical" 0 = Raise ValueError.
Proof.
  assert (Hc : lower "Elliptical" <> "cartesian") by (cbv; discriminate).
  assert (Hp : lower "Elliptical" <> "polar") by (cbv; discriminate).
  split; [exact Hc|]. split; [exact Hp|].
  apply (invalid_parametrization_raises_ValueError
           None None None None None "Elliptical" 0 Hc Hp).
Defined.

End ExternalShearFacts.

(** ** Real analysis *)

Module RealFacts.

Lemma ln_le_minus_1 (x : R) : 0 < x -> ln x <= x - 1.
Proof.
  intro Hx. pose proof (exp_ineq1_le (ln x)) as H.
  rewrite exp_ln in H by exact Hx. lra.
Qed.

Lemma ln_ge_1_minus_inv (x : R) : 0 < x -> 1 - / x <= ln x.
Proof.
  intro Hx.
  assert (Hi : 0 < / x) by (apply Rinv_0_lt_compat; exact Hx).
  pose proof (ln_le_minus_1 (/ x) Hi) as H.
  rewrite ln_Rinv in H by exact Hx. lra.
Qed.

Lemma ln_le (x y : R) : 0 < x -> x <= y -> ln x <= ln y.
Proof.
  intros Hx [Hlt|Heq].
  - left. apply ln_increasing; assumption.
  - subst y. right. reflexivity.
Qed.

(** The arctangent between its tangent line at 0 and the chord bound. *)
Lemma atan_bounds (u : R) :
  0 < u -> u / (1 + u ^ 2) <= atan u <= u.
Proof.
  intro Hu.
  destruct (MVT_cor2 atan (fun c => / (1 + c ^ 2)) 0 u Hu) as [c [Hc Hin]].
  { intros c _. apply derivable_pt_lim_atan. }
  rewrite atan_0 in Hc.
  assert (H1 : 0 < 1 + c ^ 2) by nra.
  assert (H2 : 0 < 1 + u ^ 2) by nra.
  assert (Hle : / (1 + c ^ 2) <= 1).
  { rewrite <- Rinv_1 at 2. apply Rinv_le_contravar; nra. }
  assert (Hge : / (1 + u ^ 2) <= / (1 + c ^ 2)).
  { apply Rinv_le_contravar; nra. }
  unfold Rdiv. split; nra.
Qed.

Lemma derivable_pt_lim_affine (a b x : R) :
  derivable_pt_lim (fun t => a + b * t) x b.
Proof.
  intros eps Heps. exists (mkposreal 1 Rlt_0_1). intros h Hh _.
  replace ((a + b * (x + h) - (a + b * x)) / h - b) with 0
    by (field; exact Hh).
  rewrite Rabs_R0. exact Heps.
Qed.

Lemma derivable_pt_lim_atanh (u : R) :
  -1 < u < 1 -> derivable_pt_lim Torch.atanh u (/ (1 - u ^ 2)).
Proof.
  intros [Hl Hr].
  assert (Hq : derivable_pt_lim (fun t => (1 + t) / (1 - t)) u
                 (2 / (1 - u) ^ 2)).
  { apply derivable_pt_lim_ext
      with (f := div_fct (fun t => 1 + 1 * t) (fun t => 1 + (-1) * t)).
    { intro t. unfold div_fct. f_equal; ring. }
    replace (2 / (1 - u) ^ 2)
      with ((1 * (1 + (-1) * u) - (- 1) * (1 + 1 * u))
            / Rsqr (1 + (-1) * u))
      by (unfold Rsqr; field; lra).
    apply (derivable_pt_lim_div (fun t => 1 + 1 * t)
             (fun t => 1 + (-1) * t)).
    - apply derivable_pt_lim_affine.
    - apply derivable_pt_lim_affine.
    - lra. }
  assert (Hpos : 0 < (1 + u) / (1 - u)).
  { apply Rdiv_lt_0_compat; lra. }
  pose proof (derivable_pt_lim_comp _ _ _ _ _ Hq
                (derivable_pt_lim_ln _ Hpos)) as Hc.
  replace (/ (1 - u ^ 2))
    with ((/ ((1 + u) / (1 - u)) * (2 / (1 - u) ^ 2)) / 2)
    by (field; split; nra).
  unfold Torch.atanh.
  apply (derivable_pt_lim_div_scal
           (fun t => ln ((1 + t) / (1 - t)))). exact Hc.
Qed.

Lemma atanh_0 : Torch.atanh 0 = 0.
Proof.
  unfold Torch.atanh. replace ((1 + 0) / (1 - 0)) with 1 by field.
  rewrite ln_1. field.
Qed.

Lemma atanh_bounds (u : R) :
  0 < u < 1 -> u <= Torch.atanh u <= u / (1 - u ^ 2).
Proof.
  intros [Hu Hu1].
  destruct (MVT_cor2 Torch.atanh (fun c => / (1 - c ^ 2)) 0 u Hu)
    as [c [Hc Hin]].
  { intros c Hc. apply derivable_pt_lim_atanh. lra. }
  rewrite atanh_0 in Hc.
  assert (H1 : 0 < 1 - c ^ 2) by nra.
  assert (H2 : 0 < 1 - u ^ 2) by nra.
  assert (Hge : 1 <= / (1 - c ^ 2)).
  { rewrite <- Rinv_1 at 1. apply Rinv_le_contravar; nra. }
  assert (Hle : / (1 - c ^ 2) <= / (1 - u ^ 2)).
  { apply Rinv_le_contravar; nra. }
  unfold Rdiv. split; nra.
Qed.

End RealFacts.

Module LimitFacts.
Import Limits.

(** A bound linear in the distance to [x0], valid near [x0], gives the
    limit. *)
Lemma tends_to_linear (f : R -> Tensor) (D : R -> Prop) (x0 l K r : R) :
  0 < r -> 0 <= K ->
  (forall x, D x -> Rabs (x - x0) < r ->
     exists v, f x = Fin v /\ Rabs (v - l) <= K * Rabs (x - x0)) ->
  tends_to f D x0 l.
Proof.
  intros Hr HK Hb eps Heps.
  assert (Hd : 0 < eps / (K + 1)) by (apply Rdiv_lt_0_compat; lra).
  exists (Rmin r (eps / (K + 1))). split; [apply Rmin_pos; assumption|].
  intros x HD Hx.
  assert (Hx1 : Rabs (x - x0) < r).
  { apply Rlt_le_trans with (1 := Hx). apply Rmin_l. }
  assert (Hx2 : Rabs (x - x0) < eps / (K + 1)).
  { apply Rlt_le_trans with (1 := Hx). apply Rmin_r. }
  destruct (Hb x HD Hx1) as [v [Hv Hle]].
  exists v. split; [exact Hv|].
  apply Rle_lt_trans with (1 := Hle).
  pose proof (Rabs_pos (x - x0)) as Hp.
  assert (He : (K + 1) * (eps / (K + 1)) = eps) by (field; lra).
  nra.
Qed.

End LimitFacts.

(** ** nfw.py *)

Module NFWEval.
Import NFW NFWReal TorchFacts.

Lemma literal_0 : 0.0 = 0.
Proof. lra. Qed.

Lemma literal_1 : 1.0 = 1.
Proof. lra. Qed.

Lemma gt_irrefl (x : R) : Torch.gt (Fin x) (Fin x) = false.
Proof.
  unfold Torch.gt. destruct (Rlt_dec x x) as [H|H]; [lra|reflexivity].
Qed.

(** At [x = 1] the third branch of [_f] is selected. *)
Lemma f_at_1 : _f (Fin 1) = Fin 0.
Proof.
  unfold _f, Torch.lt. rewrite gt_irrefl. cbn [Torch.where_].
  rewrite literal_0. reflexivity.
Qed.

Ltac fin_ops :=
  cbn [Torch.add Torch.sub Torch.mul Torch.pow Torch.arctan Torch.lift1
       Torch.lift2 Torch.where_].

Section Above.
Variable x : R.
Hypothesis Hx : 1 < x.

Lemma ratio_gt_pos : 0 < (x - 1) / (x + 1).
Proof. apply Rdiv_lt_0_compat; lra. Qed.

Lemma sqrt_gt_pos : 0 < R_sqrt.sqrt (x ^ 2 - 1).
Proof. apply sqrt_lt_R0. nra. Qed.

Lemma term_gt :
  (2 / Torch.sqrt (Fin x ** 2 - 1)
   * Torch.arctan (Torch.sqrt ((Fin x - 1) / (Fin x + 1))))%T
  = Fin (T_gt x).
Proof.
  fin_ops. rewrite div_fin by lra.
  rewrite !sqrt_fin by (try (left; exact ratio_gt_pos); nra).
  rewrite div_fin by (pose proof sqrt_gt_pos; lra).
  fin_ops. reflexivity.
Qed.

Lemma f_gt : _f (Fin x) = Fin (1 - T_gt x).
Proof.
  unfold _f. rewrite gt_true by exact Hx. cbn [Torch.where_].
  change ((1 - 2 / Torch.sqrt (Fin x ** 2 - 1)
           * Torch.arctan (Torch.sqrt ((Fin x - 1) / (Fin x + 1))))%T)
    with (1 - (2 / Torch.sqrt (Fin x ** 2 - 1)
           * Torch.arctan (Torch.sqrt ((Fin x - 1) / (Fin x + 1)))))%T.
  rewrite term_gt. reflexivity.
Qed.

Lemma h_gt : _h (Fin x) = Fin (ln (x / 2) + T_gt x).
Proof.
  unfold _h. rewrite gt_true by exact Hx. cbn [Torch.where_].
  rewrite term_gt. rewrite div_fin by lra.
  rewrite log_fin by lra. reflexivity.
Qed.

Lemma g_gt : _g (Fin x) = Fin (1 / 2 * ln (x / 2) ^ 2 + S_gt x).
Proof.
  unfold _g. rewrite gt_true by exact Hx. cbn [Torch.where_].
  rewrite !div_fin by lra. rewrite log_fin by lra.
  fin_ops. rewrite div_fin by lra.
  rewrite sqrt_fin by (left; exact ratio_gt_pos).
  reflexivity.
Qed.

End Above.

Section Below.
Variable x : R.
Hypothesis Hx : 0 < x < 1.

Lemma ratio_lt_bounds : 0 < (1 - x) / (1 + x) < 1.
Proof.
  split.
  - apply Rdiv_lt_0_compat; lra.
  - assert (Hi : 0 < / (1 + x)) by (apply Rinv_0_lt_compat; lra).
    assert (He : / (1 + x) * (1 + x) = 1) by (field; lra).
    unfold Rdiv. nra.
Qed.

Lemma root_lt_bounds : 0 < R_sqrt.sqrt ((1 - x) / (1 + x)) < 1.
Proof.
  pose proof ratio_lt_bounds as [H0 H1]. split.
  - apply sqrt_lt_R0. exact H0.
  - apply Rlt_le_trans with (R_sqrt.sqrt 1).
    + apply sqrt_lt_1_alt. lra.
    + rewrite sqrt_1. lra.
Qed.

Lemma sqrt_lt_pos : 0 < R_sqrt.sqrt (1 - x ^ 2).
Proof. apply sqrt_lt_R0. nra. Qed.

Lemma arctanh_root :
  Torch.arctanh (Torch.sqrt ((1 - Fin x) / (1 + Fin x)))%T
  = Fin (Torch.atanh (R_sqrt.sqrt ((1 - x) / (1 + x)))).
Proof.
  fin_ops. rewrite div_fin by lra.
  rewrite sqrt_fin by (left; apply ratio_lt_bounds).
  apply arctanh_fin. pose proof root_lt_bounds. lra.
Qed.

Lemma term_lt :
  (2 / Torch.sqrt (1 - Fin x ** 2)
   * Torch.arctanh (Torch.sqrt ((1 - Fin x) / (1 + Fin x))))%T
  = Fin (T_lt x).
Proof.
  rewrite arctanh_root. fin_ops.
  rewrite sqrt_fin by nra.
  rewrite div_fin by (pose proof sqrt_lt_pos; lra).
  fin_ops. reflexivity.
Qed.

Lemma masks_lt :
  Torch.gt (Fin x) 1 = false /\ Torch.lt (Fin x) 1 = true.
Proof.
  split.
  - apply gt_false. lra.
  - unfold Torch.lt. apply gt_true. lra.
Qed.

Lemma f_lt : _f (Fin x) = Fin (1 - T_lt x).
Proof.
  unfold _f. destruct masks_lt as [-> ->]. cbn [Torch.where_].
  change ((1 - 2 / Torch.sqrt (1 - Fin x ** 2)
           * Torch.arctanh (Torch.sqrt ((1 - Fin x) / (1 + Fin x))))%T)
    with (1 - (2 / Torch.sqrt (1 - Fin x ** 2)
           * Torch.arctanh (Torch.sqrt ((1 - Fin x) / (1 + Fin x)))))%T.
  rewrite term_lt. reflexivity.
Qed.

Lemma h_lt : _h (Fin x) = Fin (ln (x / 2) + T_lt x).
Proof.
  unfold _h. destruct masks_lt as [-> ->]. cbn [Torch.where_].
  rewrite term_lt. rewrite div_fin by lra.
  rewrite log_fin by lra. reflexivity.
Qed.

Lemma g_lt : _g (Fin x) = Fin (1 / 2 * ln (x / 2) ^ 2 + S_lt x).
Proof.
  unfold _g. destruct masks_lt as [-> ->]. cbn [Torch.where_].
  rewrite arctanh_root.
  rewrite !div_fin by lra. rewrite log_fin by lra.
  reflexivity.
Qed.

End Below.

(** At [x = 1] the third branch is selected. *)
Lemma g_at_1 : _g (Fin 1) = Fin (1 / 2 * ln (1 / 2) ^ 2).
Proof.
  unfold _g, Torch.lt. rewrite gt_false by lra. cbn [Torch.where_].
  rewrite !div_fin by lra. rewrite log_fin by lra. fin_ops.
  apply (f_equal Torch.Fin). lra.
Qed.

Lemma h_at_1 : _h (Fin 1) = Fin (ln (1 / 2) + 1).
Proof.
  unfold _h, Torch.lt. rewrite gt_false by lra. cbn [Torch.where_].
  rewrite !div_fin by lra. rewrite log_fin by lra. fin_ops.
  apply (f_equal Torch.Fin). lra.
Qed.

End NFWEval.

Module NFWBounds.
Import NFWReal RealFacts.

Section Above.
Variable x : R.
Hypothesis Hx : 1 < x.

Let u := R_sqrt.sqrt ((x - 1) / (x + 1)).

Lemma root_gt_sqr : u * u = (x - 1) / (x + 1).
Proof. apply sqrt_sqrt. left. apply NFWEval.ratio_gt_pos. exact Hx. Qed.

Lemma root_gt_pos : 0 < u.
Proof. apply sqrt_lt_R0. apply NFWEval.ratio_gt_pos. exact Hx. Qed.

Lemma sqrt_gt_factor : R_sqrt.sqrt (x ^ 2 - 1) = u * (x + 1).
Proof.
  pose proof root_gt_pos as Hu. pose proof root_gt_sqr as Hs.
  apply sqrt_lem_1; [nra|nra|].
  replace (u * (x + 1) * (u * (x + 1))) with (u * u * (x + 1) ^ 2) by ring.
  rewrite Hs. field. lra.
Qed.

Lemma T_gt_bounds : / x <= T_gt x <= 2 / (x + 1).
Proof.
  pose proof root_gt_pos as Hu. pose proof root_gt_sqr as Hs.
  pose proof (atan_bounds u Hu) as [Hlo Hhi].
  unfold T_gt. fold u. rewrite sqrt_gt_factor.
  assert (Hk : 0 < 2 / (u * (x + 1))).
  { apply Rdiv_lt_0_compat; [lra|nra]. }
  assert (H1 : 1 + u ^ 2 = 2 * x / (x + 1)).
  { replace (u ^ 2) with (u * u) by ring. rewrite Hs. field. lra. }
  split.
  - replace (/ x) with (2 / (u * (x + 1)) * (u / (1 + u ^ 2))).
    + apply Rmult_le_compat_l; [lra|exact Hlo].
    + rewrite H1. field. repeat split; lra.
  - replace (2 / (x + 1)) with (2 / (u * (x + 1)) * u) by (field; lra).
    apply Rmult_le_compat_l; [lra|exact Hhi].
Qed.

Lemma S_gt_bounds : 0 <= S_gt x <= 2 * ((x - 1) / (x + 1)).
Proof.
  pose proof root_gt_pos as Hu. pose proof root_gt_sqr as Hs.
  pose proof (atan_bounds u Hu) as [Hlo Hhi].
  assert (H0 : 0 <= atan u).
  { apply Rle_trans with (u / (1 + u ^ 2)); [|exact Hlo].
    left. apply Rdiv_lt_0_compat; nra. }
  unfold S_gt. fold u. rewrite <- Hs. split; nra.
Qed.

End Above.

Section Below.
Variable x : R.
Hypothesis Hx : 0 < x < 1.

Let w := R_sqrt.sqrt ((1 - x) / (1 + x)).

Lemma root_lt_sqr : w * w = (1 - x) / (1 + x).
Proof. apply sqrt_sqrt. left. apply NFWEval.ratio_lt_bounds. exact Hx. Qed.

Lemma sqrt_lt_factor : R_sqrt.sqrt (1 - x ^ 2) = w * (1 + x).
Proof.
  pose proof (NFWEval.root_lt_bounds x Hx) as Hw. fold w in Hw.
  pose proof root_lt_sqr as Hs.
  apply sqrt_lem_1; [nra|nra|].
  replace (w * (1 + x) * (w * (1 + x))) with (w * w * (1 + x) ^ 2) by ring.
  rewrite Hs. field. lra.
Qed.

Lemma one_minus_root_sqr : 1 - w ^ 2 = 2 * x / (1 + x).
Proof.
  replace (w ^ 2) with (w * w) by ring. rewrite root_lt_sqr. field. lra.
Qed.

Lemma T_lt_bounds : 2 / (1 + x) <= T_lt x <= / x.
Proof.
  pose proof (NFWEval.root_lt_bounds x Hx) as Hw. fold w in Hw.
  pose proof (atanh_bounds w Hw) as [Hlo Hhi].
  unfold T_lt. fold w. rewrite sqrt_lt_factor.
  assert (Hk : 0 < 2 / (w * (1 + x))).
  { apply Rdiv_lt_0_compat; [lra|nra]. }
  split.
  - replace (2 / (1 + x)) with (2 / (w * (1 + x)) * w) by (field; lra).
    apply Rmult_le_compat_l; [lra|exact Hlo].
  - replace (/ x) with (2 / (w * (1 + x)) * (w / (1 - w ^ 2))).
    + apply Rmult_le_compat_l; [lra|exact Hhi].
    + rewrite one_minus_root_sqr. field. repeat split; lra.
Qed.

Lemma S_lt_bounds : - ((1 - x) * (1 + x) / (2 * x ^ 2)) <= S_lt x <= 0.
Proof.
  pose proof (NFWEval.root_lt_bounds x Hx) as Hw. fold w in Hw.
  pose proof (atanh_bounds w Hw) as [Hlo Hhi].
  pose proof root_lt_sqr as Hs.
  unfold S_lt. fold w.
  set (A := Torch.atanh w) in *.
  assert (HA : A ^ 2 <= (w / (1 - w ^ 2)) ^ 2).
  { apply pow_incr. lra. }
  assert (Hq : (w / (1 - w ^ 2)) ^ 2 = (1 - x) * (1 + x) / (4 * x ^ 2)).
  { rewrite one_minus_root_sqr.
    replace ((w / (2 * x / (1 + x))) ^ 2)
      with (w * w * ((1 + x) / (2 * x)) ^ 2) by (field; lra).
    rewrite Hs. field. lra. }
  rewrite Hq in HA.
  replace ((1 - x) * (1 + x) / (2 * x ^ 2))
    with (2 * ((1 - x) * (1 + x) / (4 * x ^ 2))) by (field; lra).
  assert (0 <= A ^ 2) by nra.
  split; lra.
Qed.

End Below.

End NFWBounds.

Module NFWLimits.
Import NFW NFWReal RealFacts Limits LimitFacts.

Lemma ln_half : ln (1 / 2) = - ln 2.
Proof.
  replace (1 / 2) with (/ 2) by field. apply ln_Rinv. lra.
Qed.

Lemma ln_over_2 (x : R) : 0 < x -> ln (x / 2) = ln x - ln 2.
Proof.
  intro Hx. unfold Rdiv. rewrite ln_mult, ln_Rinv by lra. ring.
Qed.

Lemma ln_2_bounds : 0 < ln 2 <= 1.
Proof.
  split.
  - pose proof ln_lt_2. lra.
  - pose proof (ln_le_minus_1 2). lra.
Qed.

(** Near 1 from above. *)
Lemma near_1_above (x : R) :
  1 < x -> Rabs (x - 1) < 1 ->
  0 <= ln x <= x - 1 /\
  - (x - 1) <= T_gt x - 1 <= 0 /\
  0 <= S_gt x <= x - 1.
Proof.
  intros Hx Hn. rewrite Rabs_pos_eq in Hn by lra.
  pose proof (ln_le_minus_1 x) as H1.
  pose proof (ln_ge_1_minus_inv x) as H2.
  pose proof (NFWBounds.T_gt_bounds x Hx) as [H3 H4].
  pose proof (NFWBounds.S_gt_bounds x Hx) as [H5 H6].
  assert (Hi : 0 < / x) by (apply Rinv_0_lt_compat; lra).
  assert (Hix : / x * x = 1) by (field; lra).
  assert (Hi1 : 0 < / (x + 1)) by (apply Rinv_0_lt_compat; lra).
  assert (Hix1 : / (x + 1) * (x + 1) = 1) by (field; lra).
  unfold Rdiv in *.
  repeat split; try lra; nra.
Qed.

(** Near 1 from below. *)
Lemma near_1_below (x : R) :
  x < 1 -> Rabs (x - 1) < / 2 ->
  0 < x < 1 /\
  - (2 * (1 - x)) <= ln x <= 0 /\
  0 <= T_lt x - 1 <= 2 * (1 - x) /\
  - (4 * (1 - x)) <= S_lt x <= 0.
Proof.
  intros Hx Hn. rewrite Rabs_left in Hn by lra.
  assert (Hx0 : 0 < x < 1) by lra.
  pose proof (ln_le_minus_1 x) as H1.
  pose proof (ln_ge_1_minus_inv x) as H2.
  pose proof (NFWBounds.T_lt_bounds x Hx0) as [H3 H4].
  pose proof (NFWBounds.S_lt_bounds x Hx0) as [H5 H6].
  assert (Hi : 0 < / x) by (apply Rinv_0_lt_compat; lra).
  assert (Hix : / x * x = 1) by (field; lra).
  assert (Hi2 : / x <= 2).
  { replace 2 with (/ / 2) by field. apply Rinv_le_contravar; lra. }
  assert (Hi1 : 0 < / (1 + x)) by (apply Rinv_0_lt_compat; lra).
  assert (Hix1 : / (1 + x) * (1 + x) = 1) by (field; lra).
  assert (Hq : (1 - x) * (1 + x) / (2 * x ^ 2)
               = (1 - x) * ((1 + x) / 2 * (/ x * / x))) by (field; lra).
  rewrite Hq in H5.
  assert (Hb : (1 + x) / 2 * (/ x * / x) <= 4) by nra.
  unfold Rdiv in *.
  split; [lra|].
  repeat split; try lra; nra.
Qed.


Lemma f_limit_above : tends_to (fun x => _f (Fin x)) (above 1) 1 0.
Proof.
  apply tends_to_linear with (K := 1) (r := 1); [lra|lra|].
  intros x Hx Hn. unfold above in Hx.
  exists (1 - T_gt x). split; [apply NFWEval.f_gt; exact Hx|].
  destruct (near_1_above x Hx Hn) as [_ [HT _]].
  rewrite (Rabs_pos_eq (x - 1)) by lra.
  apply Rabs_le. lra.
Qed.

Lemma f_limit_below : tends_to (fun x => _f (Fin x)) (below 1) 1 0.
Proof.
  apply tends_to_linear with (K := 2) (r := / 2); [lra|lra|].
  intros x Hx Hn. unfold below in Hx.
  destruct (near_1_below x Hx Hn) as [Hx0 [_ [HT _]]].
  exists (1 - T_lt x). split; [apply NFWEval.f_lt; exact Hx0|].
  rewrite (Rabs_left (x - 1)) by lra.
  apply Rabs_le. lra.
Qed.

Lemma h_limit_above :
  tends_to (fun x => _h (Fin x)) (above 1) 1 (ln (1 / 2) + 1).
Proof.
  apply tends_to_linear with (K := 2) (r := 1); [lra|lra|].
  intros x Hx Hn. unfold above in Hx.
  exists (ln (x / 2) + T_gt x). split; [apply NFWEval.h_gt; exact Hx|].
  destruct (near_1_above x Hx Hn) as [HL [HT _]].
  rewrite ln_over_2, ln_half by lra.
  rewrite (Rabs_pos_eq (x - 1)) by lra.
  apply Rabs_le. lra.
Qed.

Lemma h_limit_below :
  tends_to (fun x => _h (Fin x)) (below 1) 1 (ln (1 / 2) + 1).
Proof.
  apply tends_to_linear with (K := 4) (r := / 2); [lra|lra|].
  intros x Hx Hn. unfold below in Hx.
  destruct (near_1_below x Hx Hn) as [Hx0 [HL [HT _]]].
  exists (ln (x / 2) + T_lt x). split; [apply NFWEval.h_lt; exact Hx0|].
  rewrite ln_over_2, ln_half by lra.
  rewrite (Rabs_left (x - 1)) by lra.
  apply Rabs_le. lra.
Qed.

Lemma g_limit_above :
  tends_to (fun x => _g (Fin x)) (above 1) 1 (1 / 2 * ln (1 / 2) ^ 2).
Proof.
  apply tends_to_linear with (K := 3) (r := 1); [lra|lra|].
  intros x Hx Hn. unfold above in Hx.
  exists (1 / 2 * ln (x / 2) ^ 2 + S_gt x).
  split; [apply NFWEval.g_gt; exact Hx|].
  destruct (near_1_above x Hx Hn) as [HL [_ HS]].
  rewrite ln_over_2, ln_half by lra.
  rewrite (Rabs_pos_eq (x - 1)) in * by lra.
  pose proof ln_2_bounds as H2.
  apply Rabs_le. split; nra.
Qed.

Lemma g_limit_below :
  tends_to (fun x => _g (Fin x)) (below 1) 1 (1 / 2 * ln (1 / 2) ^ 2).
Proof.
  apply tends_to_linear with (K := 7) (r := / 2); [lra|lra|].
  intros x Hx Hn. unfold below in Hx.
  destruct (near_1_below x Hx Hn) as [Hx0 [HL [_ HS]]].
  exists (1 / 2 * ln (x / 2) ^ 2 + S_lt x).
  split; [apply NFWEval.g_lt; exact Hx0|].
  rewrite ln_over_2, ln_half by lra.
  rewrite (Rabs_left (x - 1)) in * by lra.
  pose proof ln_2_bounds as H2.
  apply Rabs_le. split; nra.
Qed.

Lemma f_limit_at_infinity : tends_to_at_infinity (fun x => _f (Fin x)) 1.
Proof.
  intros eps Heps. exists (Rmax 1 (2 / eps)). intros x Hx.
  assert (H1 : 1 < x).
  { apply Rle_lt_trans with (2 := Hx). apply Rmax_l. }
  assert (H2 : 2 / eps < x).
  { apply Rle_lt_trans with (2 := Hx). apply Rmax_r. }
  exists (1 - T_gt x). split; [apply NFWEval.f_gt; exact H1|].
  pose proof (NFWBounds.T_gt_bounds x H1) as [H3 H4].
  assert (Hi : 0 < / x) by (apply Rinv_0_lt_compat; lra).
  assert (H5 : 2 / (x + 1) < eps).
  { apply Rmult_lt_reg_r with (x + 1); [lra|].
    unfold Rdiv. rewrite Rmult_assoc, Rinv_l by lra.
    assert (2 / eps * eps = 2) by (field; lra). nra. }
  replace (1 - T_gt x - 1) with (- T_gt x) by ring.
  rewrite Rabs_Ropp, Rabs_pos_eq by lra. lra.
Qed.


Lemma root_ratio (x w : R) :
  0 < x < 1 -> 0 < w < 1 -> w * w = (1 - x) / (1 + x) ->
  (1 + w) / (1 - w) = (1 + w) * (1 + w) * ((1 + x) * / (2 * x)).
Proof.
  intros Hx Hw Hs.
  assert (Hxw : x = (1 - w * w) / (1 + w * w)).
  { assert (H : w * w * (1 + x) = 1 - x) by (rewrite Hs; field; lra).
    apply Rmult_eq_reg_r with (1 + w * w); [|nra].
    unfold Rdiv. rewrite Rmult_assoc, Rinv_l by nra. nra. }
  rewrite Hxw. field. repeat split; nra.
Qed.

Section Below.
Variable x : R.
Hypothesis Hx : 0 < x < 1.

Let w := R_sqrt.sqrt ((1 - x) / (1 + x)).

Lemma atanh_root_split :
  Torch.atanh w = - ln (x / 2) / 2 + remainder x.
Proof.
  pose proof (NFWEval.root_lt_bounds x Hx) as Hw. fold w in Hw.
  pose proof (NFWBounds.root_lt_sqr x Hx) as Hs. cbv zeta in Hs. fold w in Hs.
  unfold Torch.atanh, remainder. fold w.
  rewrite (root_ratio x w Hx Hw Hs).
  assert (Hi : 0 < / (2 * x)) by (apply Rinv_0_lt_compat; lra).
  assert (E1 : ln ((1 + w) * (1 + w) * ((1 + x) * / (2 * x)))
               = ln (1 + w) + ln (1 + w) + (ln (1 + x) - (ln 2 + ln x))).
  { rewrite ln_mult by nra. rewrite (ln_mult (1 + w)) by lra.
    rewrite (ln_mult (1 + x)) by lra. rewrite ln_Rinv by lra.
    rewrite (ln_mult 2) by lra. ring. }
  assert (E3 : ln ((1 + w) / 2) = ln (1 + w) - ln 2).
  { unfold Rdiv. rewrite ln_mult by lra. rewrite ln_Rinv by lra. ring. }
  rewrite E1, E3, ln_over_2 by lra. field.
Qed.

Lemma remainder_bounds : - (2 * x) <= remainder x <= x / 2.
Proof.
  pose proof (NFWEval.root_lt_bounds x Hx) as Hw. fold w in Hw.
  pose proof (NFWBounds.one_minus_root_sqr x Hx) as Hs. cbv zeta in Hs. fold w in Hs.
  unfold remainder. fold w.
  set (y := (1 + w) / 2).
  assert (Hy : / 2 < y < 1) by (unfold y; lra).
  assert (H1 : ln y <= y - 1) by (apply ln_le_minus_1; lra).
  assert (H2 : 1 - / y <= ln y) by (apply ln_ge_1_minus_inv; lra).
  assert (H3 : ln (1 + x) <= 1 + x - 1) by (apply ln_le_minus_1; lra).
  assert (H4 : 1 - / (1 + x) <= ln (1 + x))
    by (apply ln_ge_1_minus_inv; lra).
  assert (Hiy : 0 < / y) by (apply Rinv_0_lt_compat; lra).
  assert (Hiy1 : / y * y = 1) by (field; lra).
  assert (Hix : 0 < / (1 + x)) by (apply Rinv_0_lt_compat; lra).
  assert (Hix1 : / (1 + x) * (1 + x) = 1) by (field; lra).
  assert (Hw1 : 1 - w <= 2 * x).
  { unfold Rdiv in Hs. nra. }
  assert (Hyw : 1 - y = (1 - w) / 2) by (unfold y; field).
  assert (Hiy2 : / y < 2) by nra.
  assert (Hy1 : / y * (1 - y) <= 2 * (1 - y)) by nra.
  assert (Hy2 : / y * (1 - y) = / y - 1) by lra.
  assert (Hix2 : / (1 + x) <= 1) by nra.
  split; lra.
Qed.

(** [x * ln (x / 2)] is of the order of the square root of [x]. *)
Lemma x_ln_bounds :
  - (2 * R_sqrt.sqrt x) <= x * ln (x / 2) <= 0.
Proof.
  set (q := R_sqrt.sqrt x).
  assert (Hq : 0 < q) by (apply sqrt_lt_R0; lra).
  assert (Hqq : q * q = x) by (apply sqrt_sqrt; lra).
  pose proof ln_2_bounds as H2.
  rewrite ln_over_2 by lra.
  assert (Hl : ln x = 2 * ln q).
  { rewrite <- Hqq. rewrite ln_mult by lra. ring. }
  pose proof (ln_ge_1_minus_inv q Hq) as H3.
  assert (H4 : ln x <= x - 1) by (apply ln_le_minus_1; lra).
  assert (Hi : 0 < / q) by (apply Rinv_0_lt_compat; lra).
  assert (Hi1 : / q * q = 1) by (field; lra).
  split.
  - assert (ln x - ln 2 >= - (2 * / q)) by lra.
    replace (2 * q) with (x * (2 * / q)).
    + nra.
    + rewrite <- Hqq. field. lra.
  - nra.
Qed.

End Below.


(** The quantities met below 1/2: [c = 1 / sqrt (1 - x^2)],
    [q = sqrt x], [L = ln (x / 2)], [e = remainder x]. *)
Lemma near_0 (x : R) :
  0 < x -> x < / 2 ->
  exists c q L e : R,
    T_lt x = 2 * c * (- L / 2 + e) /\
    S_lt x = -2 * (- L / 2 + e) ^ 2 /\
    L = ln (x / 2) /\
    q = R_sqrt.sqrt x /\
    1 <= c <= 1 + 2 * x ^ 2 /\
    0 < q <= 1 /\ x = q * q /\
    - (2 * q) <= x * L <= 0 /\
    L <= x / 2 - 1 /\
    - (2 * x) <= e <= x / 2.
Proof.
  intros Hx0 Hx1.
  assert (Hx : 0 < x < 1) by lra.
  set (s := R_sqrt.sqrt (1 - x ^ 2)).
  assert (Hs : 0 < s) by (apply sqrt_lt_R0; nra).
  assert (Hss : s * s = 1 - x ^ 2) by (apply sqrt_sqrt; nra).
  assert (Hs1 : s <= 1) by nra.
  assert (Hc : 0 < / s) by (apply Rinv_0_lt_compat; exact Hs).
  assert (Hcs : / s * s = 1) by (field; lra).
  set (q := R_sqrt.sqrt x).
  assert (Hq : 0 < q) by (apply sqrt_lt_R0; lra).
  assert (Hqq : q * q = x) by (apply sqrt_sqrt; lra).
  exists (/ s), q, (ln (x / 2)), (remainder x).
  split.
  { unfold T_lt. fold s. rewrite (atanh_root_split x Hx). field. lra. }
  split.
  { unfold S_lt. rewrite (atanh_root_split x Hx). reflexivity. }
  split; [reflexivity|]. split; [reflexivity|].
  split.
  { split; [nra|].
    assert (Hlow : 1 - x ^ 2 <= s) by nra.
    assert (H34 : 3 / 4 <= s) by nra.
    assert (Hd : / s - 1 = / s * (1 - s)) by lra.
    assert (Hi : / s <= 4 / 3).
    { replace (4 / 3) with (/ (3 / 4)) by field.
      apply Rinv_le_contravar; lra. }
    assert (H1s : 1 - s <= x ^ 2) by lra.
    assert (0 <= 1 - s) by lra.
    nra. }
  split; [split; [exact Hq|nra]|].
  split; [symmetry; exact Hqq|].
  split; [exact (x_ln_bounds x Hx)|].
  split.
  { assert (H : ln (x / 2) <= x / 2 - 1) by (apply ln_le_minus_1; lra).
    exact H. }
  exact (remainder_bounds x Hx).
Qed.

(** Below 1/8, [_f] lies under [ln (x / 2) + 2]. *)
Lemma f_upper_near_0 (x : R) :
  0 < x -> x <= / 8 ->
  exists v : R, _f (Fin x) = Fin v /\ v <= ln (x / 2) + 2.
Proof.
  intros Hx0 Hx1.
  exists (1 - T_lt x). split; [apply NFWEval.f_lt; lra|].
  assert (Hn : x < / 2) by lra.
  destruct (near_0 x Hx0 Hn)
    as (c & q & L & e & HT & _ & HL & _ & Hc & _ & _ & _ & HLu & He).
  rewrite HT, <- HL.
  assert (HA : 0 <= - L / 2 + e) by lra.
  assert (H2 : 2 * (- L / 2 + e) <= 2 * c * (- L / 2 + e)) by nra.
  lra.
Qed.

Lemma f_no_limit_at_0 :
  ~ exists l : R, tends_to (fun x => _f (Fin x)) (above 0) 0 l.
Proof.
  intros [l Hl].
  destruct (Hl 1 Rlt_0_1) as [delta [Hd Hnear]].
  set (x := Rmin (delta / 2) (Rmin (/ 8) (exp (l - 3)))).
  assert (Hx0 : 0 < x).
  { unfold x. repeat apply Rmin_pos; try lra. apply exp_pos. }
  assert (Hx1 : x <= delta / 2) by apply Rmin_l.
  assert (Hx2 : x <= / 8).
  { unfold x. eapply Rle_trans; [apply Rmin_r|apply Rmin_l]. }
  assert (Hx3 : x <= exp (l - 3)).
  { unfold x. eapply Rle_trans; [apply Rmin_r|apply Rmin_r]. }
  destruct (Hnear x Hx0) as [v [Hv Hclose]].
  { replace (x - 0) with x by ring. rewrite Rabs_pos_eq; lra. }
  destruct (f_upper_near_0 x Hx0 Hx2) as [v' [Hv' Hle]].
  rewrite Hv in Hv'. inversion Hv'. subst v'.
  assert (Hln : ln (x / 2) <= l - 3).
  { rewrite <- (ln_exp (l - 3)). apply ln_le; lra. }
  apply Rabs_def2 in Hclose. lra.
Qed.

(** From 1 on, [_g] and [_h] are real and stay within 2 of the half
    square of [ln (x / 2)] and of [ln (x / 2)]. *)
Lemma gh_bounds_from_1 (x : R) :
  1 <= x ->
  exists vg vh : R,
    _g (Fin x) = Fin vg /\ _h (Fin x) = Fin vh /\
    0 <= vg - 1 / 2 * ln (x / 2) ^ 2 <= 2 /\
    0 <= vh - ln (x / 2) <= 2.
Proof.
  intro Hx.
  destruct (Rle_lt_or_eq_dec 1 x Hx) as [Hgt|Heq].
  - exists (1 / 2 * ln (x / 2) ^ 2 + S_gt x), (ln (x / 2) + T_gt x).
    split; [apply NFWEval.g_gt; exact Hgt|].
    split; [apply NFWEval.h_gt; exact Hgt|].
    pose proof (NFWBounds.T_gt_bounds x Hgt) as [HT1 HT2].
    pose proof (NFWBounds.S_gt_bounds x Hgt) as [HS1 HS2].
    assert (Hi : 0 < / x) by (apply Rinv_0_lt_compat; lra).
    assert (Hi1 : 0 < / (x + 1)) by (apply Rinv_0_lt_compat; lra).
    assert (He : / (x + 1) * (x + 1) = 1) by (field; lra).
    assert (Hq : (x - 1) / (x + 1) <= 1) by (unfold Rdiv; nra).
    assert (Hq2 : 2 / (x + 1) <= 1) by (unfold Rdiv; nra).
    split; lra.
  - subst x.
    exists (1 / 2 * ln (1 / 2) ^ 2), (ln (1 / 2) + 1).
    split; [exact NFWEval.g_at_1|]. split; [exact NFWEval.h_at_1|].
    split; lra.
Qed.

End NFWLimits.

Module NFWFacts.
Import NFW Limits Examples TorchFacts.

(** C3 fails on the source: whenever the dimensionless radius is exactly 1,
    [kappa] divides [2 * kappa_s * _f(1)] by [1 ** 2 - 1 = 0] and the
    convergence it returns is not a real number. *)
Theorem kappa_undefined_at_scale_radius :
  forall (arcsec_to_rad : R)
         (get_Sigma_cr : Tensor -> Tensor -> Cosmology -> Tensor)
         (thx thy z_l z_s : Tensor) (cosmology : Cosmology)
         (thx0 thy0 m c : Tensor),
    (angular_diameter_dist cosmology z_l
     * Torch.sqrt ((thx - thx0) ** 2 + (thy - thy0) ** 2)
     * arcsec_to_rad / get_r_s z_l cosmology m c)%T = Fin 1 ->
    _f (Fin 1) = Fin 0 /\
    (Fin 1 ** 2 - 1)%T = Fin 0 /\
    kappa arcsec_to_rad get_Sigma_cr thx thy z_l z_s cosmology thx0 thy0 m c
    = Undef.
Proof.
  intros arcsec get_Sigma_cr thx thy z_l z_s cosmology thx0 thy0 m c Hx.
  split; [exact NFWEval.f_at_1|].
  split.
  { cbn [Torch.pow Torch.sub Torch.lift1 Torch.lift2].
    apply (f_equal Torch.Fin). ring. }
  unfold kappa, transform_scalar_fn. rewrite Hx, NFWEval.f_at_1.
  cbn [Torch.pow Torch.sub Torch.lift1 Torch.lift2].
  destruct (get_kappa_s get_Sigma_cr z_l z_s cosmology m c) as [ks|];
    cbn [Torch.mul Torch.div Torch.lift2]; [|reflexivity].
  destruct (Req_dec_T (1 ^ 2 - 1) 0) as [_|Hn]; [reflexivity|].
  exfalso. apply Hn. ring.
Qed.

(** C1 fails on the source: [Psi] calls the tensor [kappa_s] and raises
    [TypeError] for every input, so it returns no potential. *)
Theorem Psi_raises_TypeError :
  forall (arcsec_to_rad : R)
         (get_Sigma_cr : Tensor -> Tensor -> Cosmology -> Tensor)
         (thx thy z_l z_s : Tensor) (cosmology : Cosmology)
         (thx0 thy0 m c : Tensor),
    Psi arcsec_to_rad get_Sigma_cr thx thy z_l z_s cosmology thx0 thy0 m c
    = Raise TypeError.
Proof.
  intros. reflexivity.
Qed.

(** C2, as the source has it: for each of F, G and H the value on the
    [x = 1] branch is the common limit of the arctan branch ([1 < x]) and of
    the arctanh branch ([x < 1]) as x tends to 1, namely F(1) = 0,
    G(1) = 1/2 * ln(1/2)^2 and H(1) = ln(1/2) + 1; F tends to 1 as x grows
    without bound; at every x from 1 on, G and H return real numbers,
    within 2 above 1/2 * ln(x/2)^2 and ln(x/2).  Nothing is stated of the
    values next to x = 0. *)
Theorem auxiliary_functions_limits :
  (_f (Fin 1) = Fin 0 /\
   tends_to (fun x => _f (Fin x)) (above 1) 1 0 /\
   tends_to (fun x => _f (Fin x)) (below 1) 1 0) /\
  (_g (Fin 1) = Fin (1 / 2 * ln (1 / 2) ^ 2) /\
   tends_to (fun x => _g (Fin x)) (above 1) 1 (1 / 2 * ln (1 / 2) ^ 2) /\
   tends_to (fun x => _g (Fin x)) (below 1) 1 (1 / 2 * ln (1 / 2) ^ 2)) /\
  (_h (Fin 1) = Fin (ln (1 / 2) + 1) /\
   tends_to (fun x => _h (Fin x)) (above 1) 1 (ln (1 / 2) + 1) /\
   tends_to (fun x => _h (Fin x)) (below 1) 1 (ln (1 / 2) + 1)) /\
  tends_to_at_infinity (fun x => _f (Fin x)) 1 /\
  (forall x : R, 1 <= x ->
     exists g h : R,
       _g (Fin x) = Fin g /\ _h (Fin x) = Fin h /\
       0 <= g - 1 / 2 * ln (x / 2) ^ 2 <= 2 /\
       0 <= h - ln (x / 2) <= 2).
Proof.
  split.
  { split; [exact NFWEval.f_at_1|].
    split; [exact NFWLimits.f_limit_above|exact NFWLimits.f_limit_below]. }
  split.
  { split; [exact NFWEval.g_at_1|].
    split; [exact NFWLimits.g_limit_above|exact NFWLimits.g_limit_below]. }
  split.
  { split; [exact NFWEval.h_at_1|].
    split; [exact NFWLimits.h_limit_above|exact NFWLimits.h_limit_below]. }
  split; [exact NFWLimits.f_limit_at_infinity|].
  exact NFWLimits.gh_bounds_from_1.
Qed.

Lemma auxiliary_functions_limits_witness :
  1 <= 2 /\
  exists g h : R,
    _g (Fin 2) = Fin g /\ _h (Fin 2) = Fin h /\
    0 <= g - 1 / 2 * ln (2 / 2) ^ 2 <= 2 /\
    0 <= h - ln (2 / 2) <= 2.
Proof.
  assert (H : 1 <= 2) by lra.
  split; [exact H|].
  exact (proj2 (proj2 (proj2 (proj2 auxiliary_functions_limits))) 2 H).
Defined.

(** C2 fails as stated: F yields no finite value in the limit at the
    centre; it has no finite limit as x tends to 0 from above. *)
Lemma f_has_no_limit_at_centre :
  ~ exists l : R, tends_to (fun x => _f (Fin x)) (above 0) 0 l.
Proof.
  exact NFWLimits.f_no_limit_at_0.
Qed.

(** Concrete runs. *)

Lemma unit_scale_radius :
  get_r_s (Fin 0.5) unit_cosmology (Fin 1) (Fin 1) = Fin 1.
Proof.
  unfold get_r_s, unit_cosmology. cbn [rho_cr].
  cbn [Torch.mul Torch.lift2].
  assert (Hpi : PI <> 0) by (pose proof PI_RGT_0; lra).
  assert (HD : DELTA = 200) by (unfold DELTA; lra).
  rewrite HD.
  replace (4 * PI * 200 * (3 / (800 * PI))) with 3 by (field; exact Hpi).
  replace (3 * 1) with 3 by ring.
  rewrite !div_fin by lra.
  replace (3 / 3) with 1 by field.
  unfold Torch.rpow.
  destruct (Rlt_dec 0 1) as [_|H]; [|lra].
  replace (Rpower 1 (1 / 3)) with 1.
  - cbn [Torch.mul Torch.lift2]. apply (f_equal Torch.Fin). field.
  - unfold Rpower. rewrite ln_1, Rmult_0_r, exp_0. reflexivity.
Qed.

Lemma unit_radius :
  (NFW.angular_diameter_dist unit_cosmology (Fin 0.5)
   * Torch.sqrt ((Fin 1 - Fin 0) ** 2 + (Fin 0 - Fin 0) ** 2)
   * arcsec_to_rad
   / get_r_s (Fin 0.5) unit_cosmology (Fin 1) (Fin 1))%T = Fin 1.
Proof.
  rewrite unit_scale_radius.
  cbn [Torch.sub Torch.add Torch.pow Torch.lift1 Torch.lift2].
  replace ((1 - 0) ^ 2 + (0 - 0) ^ 2) with 1 by ring.
  rewrite sqrt_fin by lra. rewrite sqrt_1.
  unfold unit_cosmology, arcsec_to_rad. cbn [NFW.angular_diameter_dist].
  cbn [Torch.mul Torch.lift2].
  rewrite div_fin by lra.
  apply (f_equal Torch.Fin). field. pose proof PI_RGT_0. lra.
Qed.

Lemma kappa_undefined_at_scale_radius_witness :
  _f (Fin 1) = Fin 0 /\
  (Fin 1 ** 2 - 1)%T = Fin 0 /\
  kappa arcsec_to_rad unit_Sigma_cr (Fin 1) (Fin 0) (Fin 0.5) (Fin 1.5)
    unit_cosmology (Fin 0) (Fin 0) (Fin 1) (Fin 1) = Undef.
Proof.
  apply (kappa_undefined_at_scale_radius arcsec_to_rad unit_Sigma_cr
           (Fin 1) (Fin 0) (Fin 0.5) (Fin 1.5) unit_cosmology
           (Fin 0) (Fin 0) (Fin 1) (Fin 1)).
  exact unit_radius.
Defined.

End NFWFacts.

(** * Further properties *)

(** ** base.py *)

Module BaseExtra.

Import Base BaseFacts TorchFacts Examples MoreExamples.

Arguments deflection_angle_hat {Packed}.
Arguments Sigma {Packed}.
Arguments convergence {Packed}.
Arguments Sigma_cr {Packed}.

(** X1: when the lens redshift does not resolve ([unpack] raises, or
    returns no value to index), [deflection_angle_hat], [Sigma] and
    [time_delay] raise that error, whatever the cosmology and the abstract
    methods would return. *)
Theorem unresolved_redshift_fails_derived_quantities :
  forall (Packed : Type) (c_Mpc_s arcsec_to_rad : R) (self : ThinLens Packed)
         (x y z_s : Tensor) (P : option Packed) (e : exn),
    unpack self P = Raise e \/ (unpack self P = Ok [] /\ e = IndexError) ->
    deflection_angle_hat self x y z_s P = Raise e /\
    Sigma self x y z_s P = Raise e /\
    time_delay c_Mpc_s arcsec_to_rad self x y z_s P = Raise e.
Proof.
  intros Packed c arcsec self x y z_s P e [H|[H He]];
    unfold deflection_angle_hat, Sigma, time_delay; rewrite H;
    [|subst e]; repeat split; reflexivity.
Qed.

Lemma unresolved_redshift_fails_derived_quantities_witness :
  (unpack unbound_lens None = Raise MissingParameterError \/
   (unpack unbound_lens None = Ok [] /\ MissingParameterError = IndexError)) /\
  deflection_angle_hat unbound_lens 1 1 1.5 None
    = Raise MissingParameterError /\
  Sigma unbound_lens 1 1 1.5 None = Raise MissingParameterError /\
  time_delay c_Mpc_s arcsec_to_rad unbound_lens 1 1 1.5 None
    = Raise MissingParameterError.
Proof.
  split; [left; reflexivity|].
  apply (unresolved_redshift_fails_derived_quantities NoPacked c_Mpc_s
           arcsec_to_rad unbound_lens 1 1 1.5 None MissingParameterError).
  left. reflexivity.
Defined.

Ltac show_defined := eexists; reflexivity.

Ltac not_defined H := destruct H as [? H]; discriminate H.

(** X2: [time_delay] returns a real number exactly when the redshift, the
    three distances, the deflection angle and the potential are real and
    none of [c_Mpc_s], [D_s], [D_ls] is zero; in particular a lens at the
    source distance ([D_ls = 0]) has no time delay. *)
Theorem time_delay_defined_iff :
  forall (Packed : Type) (c_Mpc_s arcsec_to_rad : R) (self : ThinLens Packed)
         (x y z_s : Tensor) (P : option Packed)
         (z_l : Tensor) (others : list Tensor)
         (D_l D_s D_ls ax ay psi : Tensor),
    unpack self P = Ok (z_l :: others) ->
    angular_diameter_distance (cosmology self) z_l P = Ok D_l ->
    angular_diameter_distance (cosmology self) z_s P = Ok D_s ->
    angular_diameter_distance_z1z2 (cosmology self) z_l z_s P = Ok D_ls ->
    deflection_angle self x y z_s P = Ok (ax, ay) ->
    potential self x y z_s P = Ok psi ->
    exists t : Tensor,
      time_delay c_Mpc_s arcsec_to_rad self x y z_s P = Ok t /\
      (Torch.defined t <->
       Torch.defined z_l /\ Torch.defined D_l /\ Torch.defined D_s /\
       Torch.defined D_ls /\ Torch.defined ax /\ Torch.defined ay /\
       Torch.defined psi /\
       c_Mpc_s <> 0 /\ Torch.value D_s <> 0 /\ Torch.value D_ls <> 0).
Proof.
  intros Packed c arcsec self x y z_s P z_l others D_l D_s D_ls ax ay psi
         Hz Hl Hs Hls Ha Hpsi.
  unfold time_delay.
  rewrite Hz. cbn [bind item0].
  rewrite Hl. cbn [bind]. rewrite Hs. cbn [bind]. rewrite Hls. cbn [bind].
  rewrite Ha. cbn [bind]. rewrite Hpsi. cbn [bind].
  eexists. split; [reflexivity|].
  destruct z_l as [zl|], D_l as [dl|], D_s as [ds|], D_ls as [dls|],
    ax as [ax|], ay as [ay|], psi as [psi|];
    tensor_cases; cbn [Torch.value];
    (split;
     [ intro H; try (not_defined H);
       repeat (split; [try show_defined; try assumption|]);
       try assumption;
       try (intro Hz0; subst; match goal with N : _ <> 0 |- _ =>
              apply N; ring end)
     | intros (H1 & H2 & H3 & H4 & H5 & H6 & H7 & H8 & H9 & H10);
       try show_defined;
       try (not_defined H1); try (not_defined H2); try (not_defined H3);
       try (not_defined H4); try (not_defined H5); try (not_defined H6);
       try (not_defined H7);
       try (exfalso; first
              [ contradiction
              | match goal with E : ?r ^ 2 = 0 |- _ =>
                  apply pow_2_zero in E; contradiction end
              | lra ]) ]).
Qed.

Lemma time_delay_defined_iff_witness :
  exists t : Tensor,
    time_delay c_Mpc_s arcsec_to_rad thin_shear 1 1 1.5 None = Ok t /\
    (Torch.defined t <->
     Torch.defined (Fin 0.5) /\ Torch.defined (1000 * 0.5)%T /\
     Torch.defined (1000 * 1.5)%T /\ Torch.defined (1000 * (1.5 - 0.5))%T /\
     Torch.defined (0.1 * 1)%T /\ Torch.defined (-0.1 * 1)%T /\
     Torch.defined (0.05 * (1 ** 2 - 1 ** 2))%T /\
     c_Mpc_s <> 0 /\ Torch.value (1000 * 1.5)%T <> 0 /\
     Torch.value (1000 * (1.5 - 0.5))%T <> 0).
Proof.
  apply (time_delay_defined_iff NoPacked c_Mpc_s arcsec_to_rad thin_shear
           1 1 1.5 None 0.5 []); reflexivity.
Defined.

(** X3: with real distances and a real reduced angle (ax, ay),
    [deflection_angle_hat] is undefined in both components when
    [D_ls = 0]; otherwise it returns a real angle (hx, hy) such that
    hx * D_ls = D_s * ax and hy * D_ls = D_s * ay. *)
Theorem deflection_angle_hat_scaling :
  forall (Packed : Type) (self : ThinLens Packed)
         (x y z_s : Tensor) (P : option Packed)
         (z_l : Tensor) (others : list Tensor) (d_s d_ls ax ay : R),
    unpack self P = Ok (z_l :: others) ->
    angular_diameter_distance (cosmology self) z_s P = Ok (Fin d_s) ->
    angular_diameter_distance_z1z2 (cosmology self) z_l z_s P
      = Ok (Fin d_ls) ->
    deflection_angle self x y z_s P = Ok (Fin ax, Fin ay) ->
    (d_ls = 0 ->
     deflection_angle_hat self x y z_s P = Ok (Undef, Undef)) /\
    (d_ls <> 0 ->
     exists hx hy : R,
       deflection_angle_hat self x y z_s P = Ok (Fin hx, Fin hy) /\
       hx * d_ls = d_s * ax /\ hy * d_ls = d_s * ay).
Proof.
  intros Packed self x y z_s P z_l others d_s d_ls ax ay Hz Hs Hls Ha.
  unfold deflection_angle_hat.
  rewrite Hz. cbn [bind item0]. rewrite Hs. cbn [bind].
  rewrite Hls. cbn [bind]. rewrite Ha. cbn [bind].
  split; intro Hd.
  - subst d_ls. cbn [Torch.div].
    destruct (Req_dec_T 0 0) as [_|N]; [reflexivity|contradiction].
  - rewrite div_fin by exact Hd. cbn [Torch.mul Torch.lift2].
    exists (d_s / d_ls * ax), (d_s / d_ls * ay).
    split; [reflexivity|]. split; field; exact Hd.
Qed.

Lemma deflection_angle_hat_scaling_witness :
  (1000 * (1.5 - 0.5) = 0 ->
   deflection_angle_hat thin_shear 1 1 1.5 None = Ok (Undef, Undef)) /\
  (1000 * (1.5 - 0.5) <> 0 ->
   exists hx hy : R,
     deflection_angle_hat thin_shear 1 1 1.5 None = Ok (Fin hx, Fin hy) /\
     hx * (1000 * (1.5 - 0.5)) = 1000 * 1.5 * (0.1 * 1) /\
     hy * (1000 * (1.5 - 0.5)) = 1000 * 1.5 * (-0.1 * 1)).
Proof.
  apply (deflection_angle_hat_scaling NoPacked thin_shear 1 1 1.5 None
           0.5 [] (1000 * 1.5) (1000 * (1.5 - 0.5)) (0.1 * 1) (-0.1 * 1));
    reflexivity.
Defined.

End BaseExtra.

(** ** external_shear.py *)

Module ExternalShearExtra.

Import ExternalShear ExternalShearFacts ShearField Examples MoreExamples.
Open Scope string_scope.

(** X4: converting real cartesian components to polar form and back returns
    exactly the components one started from, the zero shear included. *)
Theorem cartesian_polar_roundtrip :
  forall g1 g2 : R,
    exists a b : R,
      there_and_back (Fin g1) (Fin g2) = (Fin a, Fin b) /\ a = g1 /\ b = g2.
Proof.
  intros g1 g2. unfold there_and_back.
  rewrite cartesian_to_polar_value. unfold _polar_to_cartesian.
  cbn [Torch.mul Torch.cos Torch.sin Torch.lift1 Torch.lift2].
  eexists. eexists. split; [reflexivity|].
  replace (2 * (1 / 2 * Torch.atan2R g2 g1)) with (Torch.atan2R g2 g1)
    by field.
  destruct (Req_dec_T (g1 ^ 2 + g2 ^ 2) 0) as [Hz|Hnz].
  - assert (g1 = 0) by nra. assert (g2 = 0) by nra. subst g1 g2.
    replace (0 ^ 2 + 0 ^ 2) with 0 by ring. rewrite sqrt_0. split; ring.
  - destruct (Atan2Facts.atan2R_cos_sin g2 g1 Hnz) as [Hc Hs].
    rewrite Hc, Hs.
    assert (Hr : 0 < R_sqrt.sqrt (g1 ^ 2 + g2 ^ 2)).
    { apply sqrt_lt_R0. nra. }
    split; field; lra.
Qed.

(** X5: a negative magnitude is not recovered by the polar round trip: for
    [gamma < 0] the magnitude comes back as [- gamma] and the angle as
    phi + PI/2 up to a multiple of PI. *)
Theorem polar_roundtrip_negative_magnitude :
  forall gamma phi : R,
    gamma < 0 ->
    exists (phi' : R) (k : Z),
      back_and_there (Fin gamma) (Fin phi) = (Fin (- gamma), Fin phi') /\
      phi' = phi + PI / 2 + IZR k * PI.
Proof.
  intros gamma phi Hneg. unfold back_and_there, _polar_to_cartesian.
  cbn [Torch.mul Torch.cos Torch.sin Torch.lift1 Torch.lift2].
  rewrite cartesian_to_polar_value.
  assert (Hpos : 0 < - gamma) by lra.
  destruct (Atan2Facts.atan2R_polar (- gamma) (2 * phi + PI) Hpos)
    as [k Hk].
  rewrite neg_sin, neg_cos in Hk.
  replace (- gamma * - Rtrigo_def.sin (2 * phi))
    with (gamma * Rtrigo_def.sin (2 * phi)) in Hk by ring.
  replace (- gamma * - Rtrigo_def.cos (2 * phi))
    with (gamma * Rtrigo_def.cos (2 * phi)) in Hk by ring.
  eexists. exists k. split.
  - f_equal. apply (f_equal Torch.Fin).
    pose proof (sin2_cos2 (2 * phi)) as H1. unfold Rsqr in H1.
    replace ((gamma * Rtrigo_def.cos (2 * phi)) ^ 2
             + (gamma * Rtrigo_def.sin (2 * phi)) ^ 2)
      with ((- gamma) ^ 2) by nra.
    apply sqrt_pow2. lra.
  - rewrite Hk. field.
Qed.

Lemma polar_roundtrip_negative_magnitude_witness :
  -1 < 0 /\
  exists (phi' : R) (k : Z),
    back_and_there (Fin (-1)) (Fin 1) = (Fin (- -1), Fin phi') /\
    phi' = 1 + PI / 2 + IZR k * PI.
Proof.
  assert (H : -1 < 0) by lra.
  split; [exact H|].
  apply (polar_roundtrip_negative_magnitude (-1) 1 H).
Defined.

Lemma get_set_same (kw : kwargs) (name : string) (v : Tensor) :
  get (set kw name v) name = Some v.
Proof. unfold set. cbn [get]. rewrite String.eqb_refl. reflexivity. Qed.

Lemma get_set_other (kw : kwargs) (name other : string) (v : Tensor) :
  name <> other -> get (set kw name v) other = get kw other.
Proof.
  intro H. unfold set. cbn [get].
  apply String.eqb_neq in H. rewrite H. reflexivity.
Qed.

(** X6: with [gamma] and [phi] among the keyword arguments,
    [_convert_polar_to_cartesian] binds [gamma_1] to gamma * cos(2 phi) and
    [gamma_2] to gamma * sin(2 phi), replacing any value passed under
    these names, and leaves every other keyword argument as it was. *)
Theorem convert_polar_binds_cartesian :
  forall (kw : kwargs) (gamma phi : Tensor),
    get kw "gamma" = Some gamma ->
    get kw "phi" = Some phi ->
    exists kw' : kwargs,
      _convert_polar_to_cartesian kw = Ok kw' /\
      get kw' "gamma_1" = Some (gamma * Torch.cos (2 * phi))%T /\
      get kw' "gamma_2" = Some (gamma * Torch.sin (2 * phi))%T /\
      forall name : string,
        name <> "gamma_1" -> name <> "gamma_2" -> get kw' name = get kw name.
Proof.
  intros kw gamma phi Hg Hp.
  unfold _convert_polar_to_cartesian. rewrite Hg, Hp.
  unfold _polar_to_cartesian. eexists. split; [reflexivity|].
  split.
  { rewrite get_set_other by discriminate. apply get_set_same. }
  split; [apply get_set_same|].
  intros name H1 H2.
  rewrite get_set_other by (intro E; apply H2; symmetry; exact E).
  apply get_set_other. intro E. apply H1. symmetry. exact E.
Qed.

(** X7: without [gamma] or without [phi] among the keyword arguments,
    [_convert_polar_to_cartesian] raises [TypeError]. *)
Theorem convert_polar_needs_both :
  forall kw : kwargs,
    get kw "gamma" = None \/ get kw "phi" = None ->
    _convert_polar_to_cartesian kw = Raise TypeError.
Proof.
  intros kw [H|H]; unfold _convert_polar_to_cartesian; rewrite H.
  - reflexivity.
  - destruct (get kw "gamma"); reflexivity.
Qed.

Lemma convert_polar_binds_cartesian_witness :
  get polar_kwargs "gamma" = Some (Fin 0.1) /\
  get polar_kwargs "phi" = Some (Fin 0) /\
  exists kw' : kwargs,
    _convert_polar_to_cartesian polar_kwargs = Ok kw' /\
    get kw' "gamma_1" = Some (Fin 0.1 * Torch.cos (2 * Fin 0))%T /\
    get kw' "gamma_2" = Some (Fin 0.1 * Torch.sin (2 * Fin 0))%T /\
    forall name : string,
      name <> "gamma_1" -> name <> "gamma_2" ->
      get kw' name = get polar_kwargs name.
Proof.
  split; [reflexivity|]. split; [reflexivity|].
  apply (convert_polar_binds_cartesian polar_kwargs (Fin 0.1) (Fin 0));
    reflexivity.
Defined.

Lemma convert_polar_needs_both_witness :
  (get shear_kwargs "gamma" = None \/ get shear_kwargs "phi" = None) /\
  _convert_polar_to_cartesian shear_kwargs = Raise TypeError.
Proof.
  split; [left; reflexivity|].
  apply (convert_polar_needs_both shear_kwargs). left. reflexivity.
Defined.

Lemma derivable_pt_lim_line (a b x : R) :
  derivable_pt_lim (fun t => t * a + b) x a.
Proof.
  apply derivable_pt_lim_ext with (f := fun t => b + a * t).
  - intro t. ring.
  - apply RealFacts.derivable_pt_lim_affine.
Qed.

(** X8: for an instance and an override bundle whose call resolves the
    shear components to [gamma_1] and [gamma_2], the Jacobian of the angle
    that [reduced_deflection_angle] returns is the constant symmetric
    matrix ((gamma_1, gamma_2), (gamma_2, - gamma_1)); [convergence]
    returns 0, and the trace of the Jacobian is twice that. *)
Theorem shear_jacobian_traceless :
  forall (self : ExternalShear) (P : option Packed) (kw : kwargs)
         (x y g1 g2 : R) (z_s : Tensor),
    keyword_arguments self [Fin x; Fin y; z_s] [] P = Ok kw ->
    get kw "gamma_1" = Some (Fin g1) ->
    get kw "gamma_2" = Some (Fin g2) ->
    get kw "x" = None -> get kw "y" = None -> get kw "z_s" = None ->
    let a1 := fun u v =>
      first_of (reduced_deflection_angle self (Fin u) (Fin v) z_s P) in
    let a2 := fun u v =>
      second_of (reduced_deflection_angle self (Fin u) (Fin v) z_s P) in
    reduced_deflection_angle self (Fin x) (Fin y) z_s P =
      Ok (Fin (x * g1 + y * g2), Fin (x * g2 - y * g1)) /\
    derivable_pt_lim (fun t => a1 t y) x g1 /\
    derivable_pt_lim (fun t => a1 x t) y g2 /\
    derivable_pt_lim (fun t => a2 t y) x g2 /\
    derivable_pt_lim (fun t => a2 x t) y (- g1) /\
    convergence self (Fin x) (Fin y) z_s P = Ok (Fin 0) /\
    g1 + - g1 = 2 * 0.
Proof.
  intros self P kw x y g1 g2 z_s Hkw H1 H2 Hx Hy Hz a1 a2. unfold a1, a2.
  assert (Hdef : forall u v : R,
             reduced_deflection_angle self (Fin u) (Fin v) z_s P =
             Ok (Fin (u * g1 + v * g2), Fin (u * g2 - v * g1))).
  { intros u v. unfold reduced_deflection_angle.
    rewrite (decorated_by_position reduced_deflection_angle_kw self
               _ _ _ _ _ _ P kw Hkw Hx Hy Hz).
    apply deflection_kw_value; assumption. }
  split; [apply Hdef|].
  split.
  { apply derivable_pt_lim_ext with (f := fun t => t * g1 + y * g2).
    - intro t. rewrite Hdef. reflexivity.
    - apply derivable_pt_lim_line. }
  split.
  { apply derivable_pt_lim_ext with (f := fun t => t * g2 + x * g1).
    - intro t. rewrite Hdef. cbn. ring.
    - apply derivable_pt_lim_line. }
  split.
  { apply derivable_pt_lim_ext with (f := fun t => t * g2 + - (y * g1)).
    - intro t. rewrite Hdef. cbn. ring.
    - apply derivable_pt_lim_line. }
  split.
  { apply derivable_pt_lim_ext with (f := fun t => t * (- g1) + x * g2).
    - intro t. rewrite Hdef. cbn. ring.
    - apply derivable_pt_lim_line. }
  split; [|ring].
  unfold convergence.
  rewrite (decorated_by_position convergence_kw self
             _ _ _ _ _ _ P kw Hkw Hx Hy Hz).
  reflexivity.
Qed.

Lemma shear_jacobian_traceless_witness :
  let a1 := fun u v =>
    first_of (reduced_deflection_angle cartesian_shear (Fin u) (Fin v)
                (Fin 1.5) None) in
  let a2 := fun u v =>
    second_of (reduced_deflection_angle cartesian_shear (Fin u) (Fin v)
                 (Fin 1.5) None) in
  reduced_deflection_angle cartesian_shear (Fin 1) (Fin 1) (Fin 1.5) None =
    Ok (Fin (1 * 0.1 + 1 * 0.0), Fin (1 * 0.0 - 1 * 0.1)) /\
  derivable_pt_lim (fun t => a1 t 1) 1 0.1 /\
  derivable_pt_lim (fun t => a1 1 t) 1 0.0 /\
  derivable_pt_lim (fun t => a2 t 1) 1 0.0 /\
  derivable_pt_lim (fun t => a2 1 t) 1 (- (0.1)) /\
  convergence cartesian_shear (Fin 1) (Fin 1) (Fin 1.5) None = Ok (Fin 0) /\
  0.1 + - (0.1) = 2 * 0.
Proof.
  apply (shear_jacobian_traceless cartesian_shear None
           [("z_l", Fin 0.5); ("gamma_1", Fin 0.1); ("gamma_2", Fin 0.0)]
           1 1 0.1 0.0 (Fin 1.5)); reflexivity.
Defined.

Lemma lower_ascii_idempotent (ch : Ascii.ascii) :
  lower_ascii (lower_ascii ch) = lower_ascii ch.
Proof.
  destruct ch as [[] [] [] [] [] [] [] []]; reflexivity.
Qed.

Lemma lower_idempotent (s : string) : lower (lower s) = lower s.
Proof.
  induction s as [|ch rest IH]; [reflexivity|].
  cbn [lower]. rewrite lower_ascii_idempotent, IH. reflexivity.
Qed.

(** X9: the constructor reads the parametrization without regard to case,
    registers [z_l] first and then only the two parameters of the chosen
    parametrization, in order; the values passed for the other
    parametrization are dropped. *)
Theorem init_registers_chosen_parametrization :
  forall (z_l gamma_1 gamma_2 gamma phi : option Tensor)
         (parametrization : string) (s : R),
    __init__ z_l gamma_1 gamma_2 gamma phi parametrization s
    = __init__ z_l gamma_1 gamma_2 gamma phi (lower parametrization) s /\
    (lower parametrization = "cartesian" ->
     __init__ z_l gamma_1 gamma_2 gamma phi parametrization s
     = Ok {| params := [("z_l", z_l); ("gamma_1", gamma_1);
                        ("gamma_2", gamma_2)];
             ExternalShear.s := s;
             _convert_params := do_nothing |}) /\
    (lower parametrization = "polar" ->
     __init__ z_l gamma_1 gamma_2 gamma phi parametrization s
     = Ok {| params := [("z_l", z_l); ("gamma", gamma); ("phi", phi)];
             ExternalShear.s := s;
             _convert_params := convert_polar_to_cartesian |}).
Proof.
  intros z_l gamma_1 gamma_2 gamma phi p s.
  split; [unfold __init__; rewrite lower_idempotent; reflexivity|].
  split; intro H; unfold __init__; rewrite H; reflexivity.
Qed.

(** X10: with the coordinates passed by position, an instance built in
    the polar parametrization with bound [gamma], [phi] returns the same
    potential, deflection angle and convergence as the instance built in
    the cartesian parametrization with gamma * cos(2 phi) and
    gamma * sin(2 phi) bound.  With the coordinates passed by keyword the
    two instances differ: the polar one returns what it returns by
    position, the cartesian one raises [TypeError] in all three methods,
    because its [_convert_params] is a plain function whose first
    parameter needs a positional argument. *)
Theorem polar_instance_equals_cartesian_instance :
  forall (z_l gamma phi x y z_s : Tensor) (s : R),
    exists polar cartesian : ExternalShear,
      __init__ (Some z_l) None None (Some gamma) (Some phi) "polar" s
        = Ok polar /\
      __init__ (Some z_l) (Some (gamma * Torch.cos (2 * phi))%T)
               (Some (gamma * Torch.sin (2 * phi))%T) None None
               "cartesian" s = Ok cartesian /\
      (potential polar x y z_s None = potential cartesian x y z_s None /\
       reduced_deflection_angle polar x y z_s None
         = reduced_deflection_angle cartesian x y z_s None /\
       convergence polar x y z_s None = convergence cartesian x y z_s None) /\
      (potential_by_keyword polar x y z_s None = potential polar x y z_s None /\
       reduced_deflection_angle_by_keyword polar x y z_s None
         = reduced_deflection_angle polar x y z_s None /\
       convergence_by_keyword polar x y z_s None
         = convergence polar x y z_s None) /\
      (potential_by_keyword cartesian x y z_s None = Raise TypeError /\
       reduced_deflection_angle_by_keyword cartesian x y z_s None
         = Raise TypeError /\
       convergence_by_keyword cartesian x y z_s None = Raise TypeError).
Proof.
  intros z_l gamma phi x y z_s s.
  eexists. eexists.
  split; [reflexivity|]. split; [reflexivity|].
  repeat split; reflexivity.
Qed.

Lemma init_registers_chosen_parametrization_witness :
  lower "Cartesian" = "cartesian" /\
  __init__ (Some (Fin 0.5)) (Some (Fin 0.1)) (Some (Fin 0.0))
           (Some (Fin 7)) None "Cartesian" 0
  = Ok {| params := [("z_l", Some (Fin 0.5)); ("gamma_1", Some (Fin 0.1));
                     ("gamma_2", Some (Fin 0.0))];
          ExternalShear.s := 0;
          _convert_params := do_nothing |}.
Proof.
  split; [reflexivity|].
  apply (proj1 (proj2 (init_registers_chosen_parametrization
                         (Some (Fin 0.5)) (Some (Fin 0.1)) (Some (Fin 0.0))
                         (Some (Fin 7)) None "Cartesian" 0))).
  reflexivity.
Defined.

(** X18: the softening length [s] is stored by the constructor and read by
    no method: two instances that differ only in [s] return the same
    potential, deflection angle and convergence. *)
Theorem softening_length_is_ignored :
  forall (z_l gamma_1 gamma_2 gamma phi : option Tensor)
         (parametrization : string) (s1 s2 : R) (a b : ExternalShear)
         (x y z_s : Tensor) (P : option Packed),
    __init__ z_l gamma_1 gamma_2 gamma phi parametrization s1 = Ok a ->
    __init__ z_l gamma_1 gamma_2 gamma phi parametrization s2 = Ok b ->
    potential a x y z_s P = potential b x y z_s P /\
    reduced_deflection_angle a x y z_s P
      = reduced_deflection_angle b x y z_s P /\
    convergence a x y z_s P = convergence b x y z_s P.
Proof.
  intros z_l gamma_1 gamma_2 gamma phi p s1 s2 a b x y z_s P Ha Hb.
  unfold __init__ in Ha, Hb.
  destruct (String.eqb (lower p) "cartesian").
  - cbn [bind] in Ha, Hb. inversion Ha. inversion Hb.
    repeat split; reflexivity.
  - destruct (String.eqb (lower p) "polar").
    + cbn [bind] in Ha, Hb. inversion Ha. inversion Hb.
      repeat split; reflexivity.
    + discriminate Ha.
Qed.

Lemma softening_length_is_ignored_witness :
  exists a b : ExternalShear,
    __init__ (Some (Fin 0.5)) (Some (Fin 0.1)) (Some (Fin 0.0)) None None
             "cartesian" 0 = Ok a /\
    __init__ (Some (Fin 0.5)) (Some (Fin 0.1)) (Some (Fin 0.0)) None None
             "cartesian" 1 = Ok b /\
    potential a (Fin 1) (Fin 1) (Fin 1.5) None
      = potential b (Fin 1) (Fin 1) (Fin 1.5) None /\
    reduced_deflection_angle a (Fin 1) (Fin 1) (Fin 1.5) None
      = reduced_deflection_angle b (Fin 1) (Fin 1) (Fin 1.5) None /\
    convergence a (Fin 1) (Fin 1) (Fin 1.5) None
      = convergence b (Fin 1) (Fin 1) (Fin 1.5) None.
Proof.
  eexists. eexists.
  split; [reflexivity|]. split; [reflexivity|].
  apply (softening_length_is_ignored
           (Some (Fin 0.5)) (Some (Fin 0.1)) (Some (Fin 0.0)) None None
           "cartesian" 0 1 _ _ (Fin 1) (Fin 1) (Fin 1.5) None
           eq_refl eq_refl).
Defined.

End ExternalShearExtra.

(** ** nfw.py *)

Module NFWExtra.

Import NFW NFWReal TorchFacts RealFacts Examples MoreExamples.

Lemma mul_undef_r (a : Tensor) : (a * Undef)%T = Undef.
Proof. destruct a; reflexivity. Qed.

Lemma add_undef_r (a : Tensor) : (a + Undef)%T = Undef.
Proof. destruct a; reflexivity. Qed.

Lemma sub_undef_r (a : Tensor) : (a - Undef)%T = Undef.
Proof. destruct a; reflexivity. Qed.

Lemma div_undef_r (a : Tensor) : (a / Undef)%T = Undef.
Proof. destruct a; reflexivity. Qed.

Lemma div_by_zero (a : Tensor) (z : R) : z = 0 -> (a / Fin z)%T = Undef.
Proof.
  intro Hz. destruct a as [r|]; [|reflexivity]. cbn [Torch.div].
  destruct (Req_dec_T z 0) as [_|N]; [reflexivity|contradiction].
Qed.

Lemma not_defined_undef : ~ Torch.defined Undef.
Proof. intros [r H]. discriminate H. Qed.

Lemma defined_fin (r : R) : Torch.defined (Fin r).
Proof. exists r. reflexivity. Qed.

(** Outside (0, 1) on the left, the arctanh factor has no real value. *)
Lemma arctanh_root_undefined (x : R) :
  x <= 0 ->
  Torch.arctanh (Torch.sqrt ((1 - Fin x) / (1 + Fin x)))%T = Undef.
Proof.
  intro Hx. cbn [Torch.add Torch.sub Torch.lift2].
  destruct (Req_dec_T (1 + x) 0) as [Hz|Hnz].
  - rewrite div_by_zero by exact Hz. reflexivity.
  - rewrite div_fin by exact Hnz.
    destruct (Rlt_dec (1 + x) 0) as [Hneg|Hpos].
    + assert (Hq : (1 - x) / (1 + x) < 0).
      { unfold Rdiv. assert (/ (1 + x) < 0) by (apply Rinv_lt_0_compat; lra).
        nra. }
      cbn [Torch.sqrt].
      destruct (Rle_dec 0 ((1 - x) / (1 + x))) as [H|_]; [lra|reflexivity].
    + assert (Hp : 0 < 1 + x) by lra.
      assert (Hq : 1 <= (1 - x) / (1 + x)).
      { assert (Hi : 0 < / (1 + x)) by (apply Rinv_0_lt_compat; lra).
        assert (He : / (1 + x) * (1 + x) = 1) by (field; lra).
        unfold Rdiv. nra. }
      rewrite sqrt_fin by lra.
      assert (Hs : 1 <= R_sqrt.sqrt ((1 - x) / (1 + x))).
      { rewrite <- sqrt_1 at 1. apply sqrt_le_1_alt. exact Hq. }
      cbn [Torch.arctanh].
      destruct (Rlt_dec (-1) (R_sqrt.sqrt ((1 - x) / (1 + x))));
        [|reflexivity].
      destruct (Rlt_dec (R_sqrt.sqrt ((1 - x) / (1 + x))) 1) as [H|_];
        [lra|reflexivity].
Qed.

Lemma f_undefined (x : R) : x <= 0 -> _f (Fin x) = Undef.
Proof.
  intro Hx. unfold _f, Torch.lt.
  rewrite gt_false by lra. rewrite gt_true by lra. cbn [Torch.where_].
  rewrite arctanh_root_undefined by exact Hx.
  rewrite mul_undef_r. apply sub_undef_r.
Qed.

Lemma log_half_undefined (x : R) :
  x <= 0 -> Torch.log (Fin x / 2)%T = Undef.
Proof.
  intro Hx. rewrite div_fin by lra. cbn [Torch.log].
  destruct (Rlt_dec 0 (x / 2)) as [H|_]; [lra|reflexivity].
Qed.

Lemma g_undefined (x : R) : x <= 0 -> _g (Fin x) = Undef.
Proof.
  intro Hx. unfold _g. cbv zeta. rewrite log_half_undefined by exact Hx.
  cbn [Torch.pow Torch.lift1]. rewrite mul_undef_r.
  destruct (Torch.where_ _ _ _); reflexivity.
Qed.

Lemma h_undefined (x : R) : x <= 0 -> _h (Fin x) = Undef.
Proof.
  intro Hx. unfold _h. cbv zeta. rewrite log_half_undefined by exact Hx.
  destruct (Torch.where_ _ _ _); reflexivity.
Qed.

Lemma fgh_defined (x : R) :
  1 / 1000 <= x ->
  Torch.defined (_f (Fin x)) /\ Torch.defined (_g (Fin x))
  /\ Torch.defined (_h (Fin x)).
Proof.
  intro Hlow. assert (Hx : 0 < x) by lra.
  destruct (Rlt_dec 1 x) as [Hgt|Hle].
  - rewrite (NFWEval.f_gt x Hgt), (NFWEval.g_gt x Hgt), (NFWEval.h_gt x Hgt).
    repeat split; apply defined_fin.
  - destruct (Req_dec_T x 1) as [H1|Hne].
    + subst x. rewrite NFWEval.f_at_1, NFWEval.g_at_1, NFWEval.h_at_1.
      repeat split; apply defined_fin.
    + assert (Hlt : 0 < x < 1) by lra.
      rewrite (NFWEval.f_lt x Hlt), (NFWEval.g_lt x Hlt),
        (NFWEval.h_lt x Hlt).
      repeat split; apply defined_fin.
Qed.

(** X11: at [x = 0] and at negative [x] none of [_f], [_g], [_h] returns a
    real number; at every [x] from 1/1000 on, all three do. *)
Theorem auxiliary_functions_domain :
  forall x : R,
    (x <= 0 ->
     _f (Fin x) = Undef /\ _g (Fin x) = Undef /\ _h (Fin x) = Undef) /\
    (1 / 1000 <= x ->
     Torch.defined (_f (Fin x)) /\ Torch.defined (_g (Fin x))
     /\ Torch.defined (_h (Fin x))).
Proof.
  intro x. split.
  - intro Hx.
    rewrite (f_undefined x Hx), (g_undefined x Hx), (h_undefined x Hx).
    repeat split.
  - exact (fgh_defined x).
Qed.

Lemma auxiliary_functions_domain_witness :
  (-1 <= 0 /\
   _f (Fin (-1)) = Undef /\ _g (Fin (-1)) = Undef /\ _h (Fin (-1)) = Undef) /\
  (1 / 1000 <= 2 /\
   Torch.defined (_f (Fin 2)) /\ Torch.defined (_g (Fin 2))
   /\ Torch.defined (_h (Fin 2))).
Proof.
  assert (H1 : -1 <= 0) by lra. assert (H2 : 1 / 1000 <= 2) by lra.
  split.
  - split; [exact H1|]. exact (proj1 (auxiliary_functions_domain (-1)) H1).
  - split; [exact H2|]. exact (proj2 (auxiliary_functions_domain 2) H2).
Defined.

Lemma cube_of_cube_root (b : R) : 0 < b -> Rpower b (1 / 3) ^ 3 = b.
Proof.
  intro Hb.
  rewrite <- Rpower_pow by apply exp_pos.
  rewrite Rpower_mult.
  replace (1 / 3 * INR 3) with 1 by (simpl; field).
  apply Rpower_1. exact Hb.
Qed.

Lemma ln_1_plus_gt (c : R) : 0 < c -> c / (1 + c) < ln (1 + c).
Proof.
  intro Hc.
  assert (Hy : 0 < / (1 + c)) by (apply Rinv_0_lt_compat; lra).
  assert (Hne : ln (/ (1 + c)) <> 0).
  { apply ln_neq_0; [|exact Hy].
    intro H. assert (He : / (1 + c) * (1 + c) = 1) by (field; lra).
    rewrite H in He. lra. }
  pose proof (exp_ineq1 (ln (/ (1 + c))) Hne) as H.
  rewrite exp_ln in H by exact Hy.
  rewrite ln_Rinv in H by lra.
  assert (He : / (1 + c) * (1 + c) = 1) by (field; lra).
  assert (Hd : c / (1 + c) = 1 - / (1 + c)) by (field; lra).
  lra.
Qed.

(** X12: for a positive halo mass [m], concentration [c] and critical
    density, [get_r_s] and [get_rho_s] return positive reals r_s and rho_s
    such that the sphere of radius c * r_s at 200 times the critical
    density weighs [m], and such that the NFW mass integral
    4 PI rho_s r_s^3 (ln(1+c) - c/(1+c)) is [m] as well. *)
Theorem scale_radius_and_density_give_mass :
  forall (z_l : Tensor) (cosmology : Cosmology) (m c rho : R),
    rho_cr cosmology z_l = Fin rho ->
    0 < rho -> 0 < m -> 0 < c ->
    exists r_s rho_s : R,
      get_r_s z_l cosmology (Fin m) (Fin c) = Fin r_s /\
      get_rho_s z_l cosmology (Fin c) = Fin rho_s /\
      0 < r_s /\ 0 < rho_s /\
      4 / 3 * PI * (c * r_s) ^ 3 * (200 * rho) = m /\
      4 * PI * rho_s * r_s ^ 3 * (ln (1 + c) - c / (1 + c)) = m.
Proof.
  intros z_l cosmology m c rho Hrho Hr Hm Hc.
  pose proof PI_RGT_0 as Hpi.
  assert (HD : DELTA = 200) by (unfold DELTA; lra).
  set (b := 3 * m / (4 * PI * 200 * rho)).
  assert (Hden : 0 < 4 * PI * 200 * rho).
  { apply Rmult_lt_0_compat; [|exact Hr]. lra. }
  assert (Hb : 0 < b).
  { unfold b. apply Rdiv_lt_0_compat; lra. }
  set (mu := ln (1 + c) - c / (1 + c)).
  assert (Hmu : 0 < mu) by (unfold mu; pose proof (ln_1_plus_gt c Hc); lra).
  exists (1 / c * Rpower b (1 / 3)), (200 / 3 * rho * c ^ 3 / mu).
  assert (Hroot : 0 < Rpower b (1 / 3)) by apply exp_pos.
  split.
  { unfold get_r_s. cbv zeta. rewrite Hrho, HD.
    cbn [Torch.mul Torch.lift2]. rewrite !div_fin by lra.
    fold b. unfold Torch.rpow.
    destruct (Rlt_dec 0 b) as [_|N]; [|contradiction].
    reflexivity. }
  split.
  { unfold get_rho_s. rewrite Hrho, HD.
    cbn [Torch.mul Torch.add Torch.pow Torch.lift1 Torch.lift2].
    rewrite log_fin by lra. rewrite !div_fin by lra.
    cbn [Torch.mul Torch.sub Torch.lift2]. fold mu.
    rewrite div_fin by lra. reflexivity. }
  assert (Hic : 0 < 1 / c) by (apply Rdiv_lt_0_compat; lra).
  split; [apply Rmult_lt_0_compat; assumption|].
  split.
  { apply Rdiv_lt_0_compat; [|exact Hmu].
    apply Rmult_lt_0_compat; [lra|]. apply pow_lt. exact Hc. }
  assert (Hcube : (1 / c * Rpower b (1 / 3)) ^ 3 = b / c ^ 3).
  { rewrite Rpow_mult_distr, cube_of_cube_root by exact Hb.
    field. lra. }
  split.
  - rewrite Rpow_mult_distr, Hcube. unfold b. field. lra.
  - rewrite Hcube. unfold b. field. repeat split; lra.
Qed.

Lemma scale_radius_and_density_give_mass_witness :
  rho_cr unit_cosmology (Fin 0.5) = Fin (3 / (800 * PI)) /\
  exists r_s rho_s : R,
    get_r_s (Fin 0.5) unit_cosmology (Fin 1) (Fin 1) = Fin r_s /\
    get_rho_s (Fin 0.5) unit_cosmology (Fin 1) = Fin rho_s /\
    0 < r_s /\ 0 < rho_s /\
    4 / 3 * PI * (1 * r_s) ^ 3 * (200 * (3 / (800 * PI))) = 1 /\
    4 * PI * rho_s * r_s ^ 3 * (ln (1 + 1) - 1 / (1 + 1)) = 1.
Proof.
  split; [reflexivity|].
  apply (scale_radius_and_density_give_mass (Fin 0.5) unit_cosmology
           1 1 (3 / (800 * PI))).
  - reflexivity.
  - apply Rdiv_lt_0_compat; [lra|].
    apply Rmult_lt_0_compat; [lra|exact PI_RGT_0].
  - exact Rlt_0_1.
  - exact Rlt_0_1.
Defined.

(** The ratio [_f(x) / (x^2 - 1)] on both sides of 1. *)
Lemma shape_bounds (x : R) :
  0 < x -> x <> 1 ->
  exists fx : R,
    _f (Fin x) = Fin fx /\
    / (1 + x) ^ 2 <= fx / (x ^ 2 - 1) <= / (x * (1 + x)).
Proof.
  intros Hx Hne.
  assert (Hi : 0 < / x) by (apply Rinv_0_lt_compat; lra).
  assert (Hix : / x * x = 1) by (field; lra).
  assert (Hi1 : 0 < / (1 + x)) by (apply Rinv_0_lt_compat; lra).
  assert (Hix1 : / (1 + x) * (1 + x) = 1) by (field; lra).
  destruct (Rlt_dec 1 x) as [Hgt|Hle].
  - exists (1 - T_gt x). split; [apply NFWEval.f_gt; exact Hgt|].
    pose proof (NFWBounds.T_gt_bounds x Hgt) as [Hlo Hhi].
    assert (Hd : 0 < / (x ^ 2 - 1)) by (apply Rinv_0_lt_compat; nra).
    replace (/ (1 + x) ^ 2) with ((1 - 2 / (x + 1)) * / (x ^ 2 - 1))
      by (field; split; nra).
    replace (/ (x * (1 + x))) with ((1 - / x) * / (x ^ 2 - 1))
      by (field; repeat split; nra).
    unfold Rdiv at 2 3.
    split; apply Rmult_le_compat_r; lra.
  - assert (Hlt : 0 < x < 1) by lra.
    exists (1 - T_lt x). split; [apply NFWEval.f_lt; exact Hlt|].
    pose proof (NFWBounds.T_lt_bounds x Hlt) as [Hlo Hhi].
    assert (Hd : 0 < / (1 - x ^ 2)) by (apply Rinv_0_lt_compat; nra).
    replace ((1 - T_lt x) / (x ^ 2 - 1)) with ((T_lt x - 1) * / (1 - x ^ 2))
      by (field; nra).
    replace (/ (1 + x) ^ 2) with ((2 / (1 + x) - 1) * / (1 - x ^ 2))
      by (field; split; nra).
    replace (/ (x * (1 + x))) with ((/ x - 1) * / (1 - x ^ 2))
      by (field; repeat split; nra).
    split; apply Rmult_le_compat_r; lra.
Qed.

(** X13: at a dimensionless radius [x] between 1/100 and 1/2 or between 2
    and 100, with a real [kappa_s], [kappa] returns 2 * kappa_s * shape for
    a shape factor between 1/(1+x)^2 and 1/(x (1+x)); the convergence is
    therefore real and has the sign of [kappa_s]. *)
Theorem kappa_between_bounds :
  forall (arcsec_to_rad : R)
         (get_Sigma_cr : Tensor -> Tensor -> Cosmology -> Tensor)
         (thx thy z_l z_s : Tensor) (cosmology : Cosmology)
         (thx0 thy0 m c : Tensor) (x ks : R),
    (angular_diameter_dist cosmology z_l
     * Torch.sqrt ((thx - thx0) ** 2 + (thy - thy0) ** 2)
     * arcsec_to_rad / get_r_s z_l cosmology m c)%T = Fin x ->
    1 / 100 <= x <= 1 / 2 \/ 2 <= x <= 100 ->
    get_kappa_s get_Sigma_cr z_l z_s cosmology m c = Fin ks ->
    exists shape : R,
      kappa arcsec_to_rad get_Sigma_cr thx thy z_l z_s cosmology
            thx0 thy0 m c = Fin (2 * ks * shape) /\
      0 < / (1 + x) ^ 2 <= shape /\ shape <= / (x * (1 + x)).
Proof.
  intros arcsec get_Sigma_cr thx thy z_l z_s cosmology thx0 thy0 m c x ks
         Hx Hrange Hks.
  assert (Hpos : 0 < x) by lra.
  assert (Hne : x <> 1) by lra.
  destruct (shape_bounds x Hpos Hne) as [fx [Hf [Hlo Hhi]]].
  exists (fx / (x ^ 2 - 1)).
  split.
  - unfold kappa, transform_scalar_fn. rewrite Hx, Hks, Hf.
    cbn [Torch.mul Torch.sub Torch.pow Torch.lift1 Torch.lift2].
    rewrite div_fin by nra.
    apply (f_equal Torch.Fin). field. nra.
  - split; [split|]; try assumption.
    apply Rinv_0_lt_compat. apply pow_lt. lra.
Qed.

(** X14: at the profile centre, whatever the halo and the cosmology,
    [kappa] returns no real number and neither component of [alpha_hat]
    is a real number. *)
Theorem centre_is_singular :
  forall (G_over_c2 arcsec_to_rad rad_to_arcsec : R)
         (get_Sigma_cr : Tensor -> Tensor -> Cosmology -> Tensor)
         (z_l z_s : Tensor) (cosmology : Cosmology) (m c : Tensor)
         (thx0 thy0 : R),
    kappa arcsec_to_rad get_Sigma_cr (Fin thx0) (Fin thy0) z_l z_s cosmology
          (Fin thx0) (Fin thy0) m c = Undef /\
    alpha_hat G_over_c2 arcsec_to_rad rad_to_arcsec (Fin thx0) (Fin thy0)
              z_l z_s cosmology (Fin thx0) (Fin thy0) m c = (Undef, Undef).
Proof.
  intros G arcsec rad get_Sigma_cr z_l z_s cosmology m c thx0 thy0.
  assert (Hth : Torch.sqrt ((Fin thx0 - Fin thx0) ** 2
                            + (Fin thy0 - Fin thy0) ** 2)%T = Fin 0).
  { cbn [Torch.sub Torch.add Torch.pow Torch.lift1 Torch.lift2].
    replace ((thx0 - thx0) ^ 2 + (thy0 - thy0) ^ 2) with 0 by ring.
    rewrite sqrt_fin by lra. rewrite sqrt_0. reflexivity. }
  split.
  - unfold kappa, transform_scalar_fn. rewrite Hth.
    set (ks := get_kappa_s get_Sigma_cr z_l z_s cosmology m c).
    destruct (angular_diameter_dist cosmology z_l) as [d|];
      [|cbn [Torch.mul Torch.div Torch.pow Torch.sub Torch.lift1
             Torch.lift2]; apply div_undef_r].
    cbn [Torch.mul Torch.lift2].
    destruct (get_r_s z_l cosmology m c) as [r|];
      [|cbn [Torch.div Torch.pow Torch.sub Torch.lift1 Torch.lift2];
        apply div_undef_r].
    destruct (Req_dec_T r 0) as [Hz|Hnz].
    + rewrite (div_by_zero _ r Hz).
      cbn [Torch.pow Torch.sub Torch.lift1 Torch.lift2]. apply div_undef_r.
    + rewrite div_fin by exact Hnz.
      rewrite f_undefined by (right; field; exact Hnz).
      rewrite mul_undef_r. reflexivity.
  - unfold alpha_hat, transform_vector_fn. rewrite Hth.
    rewrite !div_by_zero by reflexivity. reflexivity.
Qed.

(** X15: whenever [alpha_hat] returns a real angle at real coordinates, the
    angle is parallel to the radius vector from the profile centre. *)
Theorem alpha_hat_is_radial :
  forall (G_over_c2 arcsec_to_rad rad_to_arcsec : R)
         (z_l z_s : Tensor) (cosmology : Cosmology) (m c : Tensor)
         (thx thy thx0 thy0 ahx ahy : R),
    alpha_hat G_over_c2 arcsec_to_rad rad_to_arcsec (Fin thx) (Fin thy)
              z_l z_s cosmology (Fin thx0) (Fin thy0) m c
    = (Fin ahx, Fin ahy) ->
    ahx * (thy - thy0) = ahy * (thx - thx0).
Proof.
  intros G arcsec rad z_l z_s cosmology m c thx thy thx0 thy0 ahx ahy.
  unfold alpha_hat, transform_vector_fn.
  cbn [Torch.sub Torch.add Torch.pow Torch.lift1 Torch.lift2].
  rewrite sqrt_fin by (apply Rplus_le_le_0_compat; apply pow2_ge_0).
  set (th := R_sqrt.sqrt ((thx - thx0) ^ 2 + (thy - thy0) ^ 2)).
  match goal with
  | |- ((?a * _ / _)%T, _) = _ -> _ => destruct a as [al|]
  end; [|discriminate].
  cbn [Torch.mul Torch.lift2]. cbn [Torch.div].
  destruct (Req_dec_T th 0) as [Hz|Hnz]; [discriminate|].
  intro H. inversion H. field. exact Hnz.
Qed.

(** X16: beyond the scale radius ([1 < x]) [_h] lies between
    ln(x/2) + 1/x and ln(x/2) + 2/(x+1), and is at least 1 - ln 2, a
    positive number; the same lower bound holds at [x = 1]. *)
Theorem h_bounds_beyond_scale_radius :
  forall x : R,
    1 <= x ->
    exists v : R,
      _h (Fin x) = Fin v /\
      0 < 1 - ln 2 <= v /\
      (1 < x -> ln (x / 2) + / x <= v <= ln (x / 2) + 2 / (x + 1)).
Proof.
  intros x Hx.
  assert (H2 : ln 2 < 1).
  { assert (Hn : ln 2 <> 0) by (apply ln_neq_0; lra).
    pose proof (exp_ineq1 (ln 2) Hn) as H. rewrite exp_ln in H by lra.
    lra. }
  destruct Hx as [Hgt|Heq].
  - exists (ln (x / 2) + T_gt x). split; [apply NFWEval.h_gt; exact Hgt|].
    pose proof (NFWBounds.T_gt_bounds x Hgt) as [Hlo Hhi].
    assert (Hl : 1 - / x <= ln x) by (apply ln_ge_1_minus_inv; lra).
    rewrite NFWLimits.ln_over_2 by lra.
    split; [split; lra|]. intros _. split; lra.
  - subst x. exists (ln (1 / 2) + 1). split; [exact NFWEval.h_at_1|].
    rewrite NFWLimits.ln_half. split; [split; lra|]. intro H. lra.
Qed.

Lemma h_bounds_beyond_scale_radius_witness :
  1 <= 2 /\
  exists v : R,
    _h (Fin 2) = Fin v /\
    0 < 1 - ln 2 <= v /\
    (1 < 2 -> ln (2 / 2) + / 2 <= v <= ln (2 / 2) + 2 / (2 + 1)).
Proof.
  assert (H : 1 <= 2) by lra.
  split; [exact H|]. apply (h_bounds_beyond_scale_radius 2 H).
Defined.

(** X17: with a real [alpha_hat] = (hx, hy) and real distances, [alpha] is
    undefined in both components when [D_s = 0]; otherwise it returns the
    real angle (ax, ay) with ax * D_s = D_ls * hx and ay * D_s = D_ls * hy. *)
Theorem alpha_scales_alpha_hat :
  forall (G_over_c2 arcsec_to_rad rad_to_arcsec : R)
         (thx thy z_l z_s : Tensor) (cosmology : Cosmology)
         (thx0 thy0 m c : Tensor) (d_s d_ls hx hy : R),
    angular_diameter_dist cosmology z_s = Fin d_s ->
    angular_diameter_dist_z1z2 cosmology z_l z_s = Fin d_ls ->
    alpha_hat G_over_c2 arcsec_to_rad rad_to_arcsec thx thy z_l z_s
              cosmology thx0 thy0 m c = (Fin hx, Fin hy) ->
    (d_s = 0 ->
     alpha G_over_c2 arcsec_to_rad rad_to_arcsec thx thy z_l z_s
           cosmology thx0 thy0 m c = (Undef, Undef)) /\
    (d_s <> 0 ->
     exists ax ay : R,
       alpha G_over_c2 arcsec_to_rad rad_to_arcsec thx thy z_l z_s
             cosmology thx0 thy0 m c = (Fin ax, Fin ay) /\
       ax * d_s = d_ls * hx /\ ay * d_s = d_ls * hy).
Proof.
  intros G arcsec rad thx thy z_l z_s cosmology thx0 thy0 m c
         d_s d_ls hx hy Hs Hls Hh.
  unfold alpha. rewrite Hs, Hls, Hh.
  split; intro Hd.
  - rewrite (div_by_zero _ d_s Hd). reflexivity.
  - rewrite div_fin by exact Hd. cbn [Torch.mul Torch.lift2].
    exists (d_ls / d_s * hx), (d_ls / d_s * hy).
    split; [reflexivity|]. split; field; exact Hd.
Qed.

Lemma ln_2_gt_half : 0 < ln (1 + 1) - 1 / (1 + 1).
Proof.
  replace (1 + 1) with 2 by ring. pose proof ln_lt_2. lra.
Qed.

Lemma unit_density :
  get_rho_s (Fin 0.5) unit_cosmology (Fin 1) = Fin unit_rho_s.
Proof.
  unfold get_rho_s, unit_cosmology. cbn [rho_cr].
  assert (HD : DELTA = 200) by (unfold DELTA; lra). rewrite HD.
  pose proof ln_2_gt_half as Hmu.
  cbn [Torch.add Torch.pow Torch.lift1 Torch.lift2].
  rewrite log_fin by lra. rewrite !div_fin by lra.
  cbn [Torch.mul Torch.sub Torch.lift2].
  rewrite div_fin by lra. reflexivity.
Qed.

Lemma unit_kappa_s :
  get_kappa_s unit_Sigma_cr (Fin 0.5) (Fin 1.5) unit_cosmology (Fin 1) (Fin 1)
  = Fin (unit_rho_s * 1 / 1).
Proof.
  unfold get_kappa_s. cbv zeta.
  rewrite unit_density, NFWFacts.unit_scale_radius. unfold unit_Sigma_cr.
  cbn [Torch.mul Torch.lift2]. rewrite div_fin by lra. reflexivity.
Qed.

Lemma unit_angle :
  Torch.sqrt ((Fin 2 - Fin 0) ** 2 + (Fin 0 - Fin 0) ** 2)%T = Fin 2.
Proof.
  cbn [Torch.sub Torch.add Torch.pow Torch.lift1 Torch.lift2].
  replace ((2 - 0) ^ 2 + (0 - 0) ^ 2) with (2 * 2) by ring.
  rewrite sqrt_fin by lra. rewrite sqrt_square by lra. reflexivity.
Qed.

Lemma unit_radius_2 :
  (angular_diameter_dist unit_cosmology (Fin 0.5)
   * Torch.sqrt ((Fin 2 - Fin 0) ** 2 + (Fin 0 - Fin 0) ** 2)
   * arcsec_to_rad
   / get_r_s (Fin 0.5) unit_cosmology (Fin 1) (Fin 1))%T = Fin 2.
Proof.
  rewrite NFWFacts.unit_scale_radius, unit_angle.
  unfold unit_cosmology, arcsec_to_rad. cbn [angular_diameter_dist].
  cbn [Torch.mul Torch.lift2]. rewrite div_fin by lra.
  apply (f_equal Torch.Fin). field. pose proof PI_RGT_0. lra.
Qed.

Lemma kappa_between_bounds_witness :
  (1 / 100 <= 2 <= 1 / 2 \/ 2 <= 2 <= 100) /\
  exists shape : R,
    kappa arcsec_to_rad unit_Sigma_cr (Fin 2) (Fin 0) (Fin 0.5) (Fin 1.5)
          unit_cosmology (Fin 0) (Fin 0) (Fin 1) (Fin 1)
    = Fin (2 * (unit_rho_s * 1 / 1) * shape) /\
    0 < / (1 + 2) ^ 2 <= shape /\ shape <= / (2 * (1 + 2)).
Proof.
  assert (H : 1 / 100 <= 2 <= 1 / 2 \/ 2 <= 2 <= 100) by (right; lra).
  split; [exact H|].
  apply (kappa_between_bounds arcsec_to_rad unit_Sigma_cr
           (Fin 2) (Fin 0) (Fin 0.5) (Fin 1.5) unit_cosmology
           (Fin 0) (Fin 0) (Fin 1) (Fin 1) 2 (unit_rho_s * 1 / 1)
           unit_radius_2 H unit_kappa_s).
Defined.

Lemma unit_alpha_hat :
  alpha_hat G_over_c2 arcsec_to_rad rad_to_arcsec (Fin 2) (Fin 0)
            (Fin 0.5) (Fin 1.5) unit_cosmology (Fin 0) (Fin 0) (Fin 1) (Fin 1)
  = (Fin (unit_alpha * (2 - 0) / 2), Fin (unit_alpha * (0 - 0) / 2)).
Proof.
  assert (Hpi : 0 < PI) by exact PI_RGT_0.
  assert (Hxi : 648000 / PI * 2 * arcsec_to_rad = 2).
  { unfold arcsec_to_rad. field. lra. }
  unfold alpha_hat, transform_vector_fn.
  rewrite unit_radius_2, unit_angle, unit_density,
    NFWFacts.unit_scale_radius.
  rewrite (NFWEval.h_gt 2) by lra.
  unfold unit_cosmology at 1 2. cbn [angular_diameter_dist].
  cbn [Torch.mul Torch.sub Torch.pow Torch.lift1 Torch.lift2].
  rewrite div_fin by lra.
  cbn [Torch.mul Torch.lift2]. rewrite !div_fin by lra.
  reflexivity.
Qed.

Lemma alpha_hat_is_radial_witness :
  alpha_hat G_over_c2 arcsec_to_rad rad_to_arcsec (Fin 2) (Fin 0)
            (Fin 0.5) (Fin 1.5) unit_cosmology (Fin 0) (Fin 0) (Fin 1) (Fin 1)
  = (Fin (unit_alpha * (2 - 0) / 2), Fin (unit_alpha * (0 - 0) / 2)) /\
  unit_alpha * (2 - 0) / 2 * (0 - 0) = unit_alpha * (0 - 0) / 2 * (2 - 0).
Proof.
  split; [exact unit_alpha_hat|].
  apply (alpha_hat_is_radial G_over_c2 arcsec_to_rad rad_to_arcsec
           (Fin 0.5) (Fin 1.5) unit_cosmology (Fin 1) (Fin 1)
           2 0 0 0 _ _ unit_alpha_hat).
Defined.

Lemma alpha_scales_alpha_hat_witness :
  (648000 / PI = 0 ->
   alpha G_over_c2 arcsec_to_rad rad_to_arcsec (Fin 2) (Fin 0)
         (Fin 0.5) (Fin 1.5) unit_cosmology (Fin 0) (Fin 0) (Fin 1) (Fin 1)
   = (Undef, Undef)) /\
  (648000 / PI <> 0 ->
   exists ax ay : R,
     alpha G_over_c2 arcsec_to_rad rad_to_arcsec (Fin 2) (Fin 0)
           (Fin 0.5) (Fin 1.5) unit_cosmology (Fin 0) (Fin 0) (Fin 1) (Fin 1)
     = (Fin ax, Fin ay) /\
     ax * (648000 / PI) = 1 * (unit_alpha * (2 - 0) / 2) /\
     ay * (648000 / PI) = 1 * (unit_alpha * (0 - 0) / 2)).
Proof.
  apply (alpha_scales_alpha_hat G_over_c2 arcsec_to_rad rad_to_arcsec
           (Fin 2) (Fin 0) (Fin 0.5) (Fin 1.5) unit_cosmology
           (Fin 0) (Fin 0) (Fin 1) (Fin 1) (648000 / PI) 1 _ _
           eq_refl eq_refl unit_alpha_hat).
Defined.

Lemma h_of_undef : _h Undef = Undef.
Proof. reflexivity. Qed.

(** Without a positive mass the scale radius is zero or undefined, and the
    dimensionless radius is undefined. *)
Lemma radius_undefined_without_mass (z_l : Tensor) (cosmology : Cosmology)
    (c xi : Tensor) (m rho : R) :
  rho_cr cosmology z_l = Fin rho -> 0 < rho -> m <= 0 ->
  (xi / get_r_s z_l cosmology (Fin m) c)%T = Undef.
Proof.
  intros Hrho Hr Hm.
  pose proof PI_RGT_0 as Hpi.
  assert (HD : DELTA = 200) by (unfold DELTA; lra).
  assert (Hden : 0 < 4 * PI * 200 * rho).
  { apply Rmult_lt_0_compat; [|exact Hr]. lra. }
  assert (Hi : 0 < / (4 * PI * 200 * rho))
    by (apply Rinv_0_lt_compat; exact Hden).
  unfold get_r_s. cbv zeta. rewrite Hrho, HD.
  cbn [Torch.mul Torch.lift2]. rewrite div_fin by lra.
  unfold Torch.rpow.
  destruct (Rlt_dec 0 (3 * m / (4 * PI * 200 * rho))) as [Hpos|_].
  { exfalso. unfold Rdiv in Hpos. nra. }
  destruct (Req_dec_T (3 * m / (4 * PI * 200 * rho)) 0) as [_|_].
  - destruct (1 / c)%T as [q|].
    + cbn [Torch.mul Torch.lift2]. apply div_by_zero. ring.
    + cbn [Torch.mul Torch.lift2]. apply div_undef_r.
  - rewrite mul_undef_r. apply div_undef_r.
Qed.

(** X19: a halo whose mass is zero or negative has no convergence and no
    deflection angle anywhere: [kappa] and both components of [alpha_hat]
    are undefined at every coordinate. *)
Theorem massless_halo_is_undefined :
  forall (G_over_c2 arcsec_to_rad rad_to_arcsec : R)
         (get_Sigma_cr : Tensor -> Tensor -> Cosmology -> Tensor)
         (thx thy z_l z_s : Tensor) (cosmology : Cosmology)
         (thx0 thy0 c : Tensor) (m rho : R),
    rho_cr cosmology z_l = Fin rho -> 0 < rho -> m <= 0 ->
    kappa arcsec_to_rad get_Sigma_cr thx thy z_l z_s cosmology
          thx0 thy0 (Fin m) c = Undef /\
    alpha_hat G_over_c2 arcsec_to_rad rad_to_arcsec thx thy z_l z_s
              cosmology thx0 thy0 (Fin m) c = (Undef, Undef).
Proof.
  intros G arcsec rad get_Sigma_cr thx thy z_l z_s cosmology thx0 thy0 c
         m rho Hrho Hr Hm.
  split.
  - unfold kappa, transform_scalar_fn.
    rewrite (radius_undefined_without_mass z_l cosmology c _ m rho Hrho Hr Hm).
    cbn [Torch.pow Torch.sub Torch.lift1 Torch.lift2]. apply div_undef_r.
  - unfold alpha_hat, transform_vector_fn.
    rewrite (radius_undefined_without_mass z_l cosmology c _ m rho Hrho Hr Hm).
    rewrite h_of_undef, mul_undef_r. reflexivity.
Qed.

Lemma massless_halo_is_undefined_witness :
  rho_cr unit_cosmology (Fin 0.5) = Fin (3 / (800 * PI)) /\
  0 <= 0 /\
  kappa arcsec_to_rad unit_Sigma_cr (Fin 2) (Fin 0) (Fin 0.5) (Fin 1.5)
        unit_cosmology (Fin 0) (Fin 0) (Fin 0) (Fin 1) = Undef /\
  alpha_hat G_over_c2 arcsec_to_rad rad_to_arcsec (Fin 2) (Fin 0)
            (Fin 0.5) (Fin 1.5) unit_cosmology (Fin 0) (Fin 0) (Fin 0) (Fin 1)
  = (Undef, Undef).
Proof.
  split; [reflexivity|]. split; [apply Rle_refl|].
  apply (massless_halo_is_undefined G_over_c2 arcsec_to_rad rad_to_arcsec
           unit_Sigma_cr (Fin 2) (Fin 0) (Fin 0.5) (Fin 1.5) unit_cosmology
           (Fin 0) (Fin 0) (Fin 1) 0 (3 / (800 * PI))).
  - reflexivity.
  - apply Rdiv_lt_0_compat; [lra|].
    apply Rmult_lt_0_compat; [lra|exact PI_RGT_0].
  - apply Rle_refl.
Defined.

End NFWExtra.
